(** * arch/arm64/kernel/cpufeature.c: CPU feature detection and hotplug checks

    A shallow embedding of the arm64 capability code: the feature matcher,
    the capability table, boot-time detection, the enable broadcast and the
    verification a late CPU goes through before it joins the system.

    Code that runs on a core and touches kernel globals is written in a small
    state monad over [machine]; a computation either returns to its caller or
    halts the calling core ([PARKED], [BUG], ...).  Every call that leaves
    this file (register reads, printk, callbacks) and every call of the
    matcher is recorded, in order, in the machine's [trace]. *)

From stdpp Require Import base numbers strings list gmap.

Local Open Scope Z_scope.

(** ** Identification registers

    The registers that the file names, either as the operand of
    [read_cpuid] or as a [case] label of [__raw_read_system_reg]. *)
Inductive sysreg :=
| SYS_ID_PFR0_EL1 | SYS_ID_PFR1_EL1 | SYS_ID_DFR0_EL1
| SYS_ID_MMFR0_EL1 | SYS_ID_MMFR1_EL1 | SYS_ID_MMFR2_EL1 | SYS_ID_MMFR3_EL1
| SYS_ID_ISAR0_EL1 | SYS_ID_ISAR1_EL1 | SYS_ID_ISAR2_EL1
| SYS_ID_ISAR3_EL1 | SYS_ID_ISAR4_EL1 | SYS_ID_ISAR5_EL1
| SYS_MVFR0_EL1 | SYS_MVFR1_EL1 | SYS_MVFR2_EL1
| SYS_ID_AA64PFR0_EL1 | SYS_ID_AA64PFR1_EL1
| SYS_ID_AA64DFR0_EL1 | SYS_ID_AA64DFR1_EL1
| SYS_ID_AA64MMFR0_EL1 | SYS_ID_AA64MMFR1_EL1 | SYS_ID_AA64MMFR2_EL1
| SYS_ID_AA64ISAR0_EL1 | SYS_ID_AA64ISAR1_EL1
| SYS_CNTFRQ_EL0 | SYS_CTR_EL0 | SYS_DCZID_EL0.

Global Instance sysreg_eq_dec : EqDecision sysreg.
Proof. solve_decision. Defined.

(** ** The capability table entry, [struct arm64_cpu_capabilities] *)

(** The two [matches] hooks defined in the file. *)
Inductive match_fn := has_id_aa64pfr0_feature | has_id_aa64mmfr1_feature.

(** The one [enable] hook the table refers to. *)
Inductive enable_fn := cpu_enable_pan.

Global Instance match_fn_eq_dec : EqDecision match_fn.
Proof. solve_decision. Defined.
Global Instance enable_fn_eq_dec : EqDecision enable_fn.
Proof. solve_decision. Defined.

(** Pointer fields are [option]s ([None] is the null pointer); [sys_reg] is a
    u32 and is unset when zero, which is what a designated initialiser leaves
    in a field it does not mention. *)
Record arm64_cpu_capabilities := Cap {
  desc : option string;
  capability : N;
  matches : option match_fn;
  enable : option enable_fn;
  sys_reg : Z;
  field_pos : Z;
  min_field_value : Z;
}.

Global Instance arm64_cpu_capabilities_eq_dec : EqDecision arm64_cpu_capabilities.
Proof. solve_decision. Defined.

(** The all-zero entry [{}] that closes a table. *)
Definition sentinel : arm64_cpu_capabilities :=
  {| desc := None; capability := 0%N; matches := None; enable := None;
     sys_reg := 0; field_pos := 0; min_field_value := 0 |}.

(** ** Cores and the machine *)

(** The core that executes a function: its number and the values its
    identification registers hold. *)
Record core := Core {
  raw_smp_processor_id : nat;
  id_regs : sysreg → Z;
}.

(** [struct cpu_operations], of which only the [cpu_die] hook is looked at:
    the field says whether the hook is there. *)
Record cpu_operations := CpuOps { cpu_die : bool }.

Inductive event :=
| ev_read_cpuid (cpu : nat) (reg : sysreg)
| ev_feature_matches (cpu : nat) (reg : Z) (entry : arm64_cpu_capabilities)
| ev_pr_info (info : string) (name : string)
| ev_pr_crit (cpu : nat) (cap_type : string) (name : option string)
| ev_set_cpu_present (cpu : nat) (present : bool)
| ev_cpu_die (cpu : nat)
| ev_on_each_cpu (func : enable_fn) (info : arm64_cpu_capabilities) (wait : bool)
| ev_enable (cpu : nat) (fn : enable_fn) (arg : option arm64_cpu_capabilities)
| ev_BUG (cpu : nat).

Global Instance event_eq_dec : EqDecision event.
Proof. solve_decision. Defined.

Record machine := Machine {
  cpu_hwcaps : gset N;
  sys_caps_initialised : bool;
  cpu_present_mask : gset nat;
  cpu_online_mask : list nat;
  cpu_ops : nat → option cpu_operations;
  trace : list event;
}.

Definition with_hwcaps (f : gset N → gset N) (m : machine) : machine :=
  {| cpu_hwcaps := f (cpu_hwcaps m);
     sys_caps_initialised := sys_caps_initialised m;
     cpu_present_mask := cpu_present_mask m;
     cpu_online_mask := cpu_online_mask m;
     cpu_ops := cpu_ops m;
     trace := trace m |}.

Definition with_present (f : gset nat → gset nat) (m : machine) : machine :=
  {| cpu_hwcaps := cpu_hwcaps m;
     sys_caps_initialised := sys_caps_initialised m;
     cpu_present_mask := f (cpu_present_mask m);
     cpu_online_mask := cpu_online_mask m;
     cpu_ops := cpu_ops m;
     trace := trace m |}.

Definition with_initialised (b : bool) (m : machine) : machine :=
  {| cpu_hwcaps := cpu_hwcaps m;
     sys_caps_initialised := b;
     cpu_present_mask := cpu_present_mask m;
     cpu_online_mask := cpu_online_mask m;
     cpu_ops := cpu_ops m;
     trace := trace m |}.

(** [emit evs m] appends [evs] to the trace. *)
Definition emit (evs : list event) (m : machine) : machine :=
  {| cpu_hwcaps := cpu_hwcaps m;
     sys_caps_initialised := sys_caps_initialised m;
     cpu_present_mask := cpu_present_mask m;
     cpu_online_mask := cpu_online_mask m;
     cpu_ops := cpu_ops m;
     trace := trace m ++ evs |}.

(** ** The monad *)

(** Why a core never comes back from a call. *)
Inductive halt :=
| PARKED          (* the wfe/wfi loop at the end of fail_incapable_cpu *)
| BUG             (* BUG() *)
| NULL_CALL       (* a call through a null function pointer *)
| OUT_OF_BOUNDS.  (* a table walked past its last element *)

Inductive result (A : Type) :=
| Returns (a : A) (m : machine)
| Halts (h : halt) (m : machine).
Arguments Returns {A} a m.
Arguments Halts {A} h m.

Definition M (A : Type) : Type := machine → result A.

Definition ret {A} (a : A) : M A := λ m, Returns a m.

Definition bind {A B} (c : M A) (k : A → M B) : M B :=
  λ m, match c m with
       | Returns a m' => k a m'
       | Halts h m' => Halts h m'
       end.

Definition stop {A} (h : halt) : M A := λ m, Halts h m.
Definition get {A} (f : machine → A) : M A := λ m, Returns (f m) m.
Definition modify (f : machine → machine) : M unit := λ m, Returns tt (f m).
Definition log (e : event) : M unit := modify (emit [e]).

Declare Scope cpu_scope.
Delimit Scope cpu_scope with cpu.
Notation "'let*' x ':=' c 'in' k" := (bind c (λ x, k))
  (at level 10, x name, c at level 100, k at level 200) : cpu_scope.
Notation "c ';;;' k" := (bind c (λ _, k))
  (at level 100, k at level 200, right associativity) : cpu_scope.
Local Open Scope cpu_scope.

(** The machine a computation leaves behind, whether it returned or not. *)
Definition final {A} (r : result A) : machine :=
  match r with Returns _ m => m | Halts _ m => m end.

(** ** Values for the examples

    The header constants are parameters of the development.  The examples
    instantiate them with the values below. *)

(** The ARMv8 packing of (op0, op1, CRn, CRm, op2) into a u32. *)
Definition sysreg_word (op0 op1 crn crm op2 : Z) : Z :=
  Z.lor (Z.shiftl op0 19)
    (Z.lor (Z.shiftl op1 16)
       (Z.lor (Z.shiftl crn 12) (Z.lor (Z.shiftl crm 8) (Z.shiftl op2 5)))).

Definition armv8_encoding (r : sysreg) : Z :=
  match r with
  | SYS_ID_PFR0_EL1 => sysreg_word 3 0 0 1 0
  | SYS_ID_PFR1_EL1 => sysreg_word 3 0 0 1 1
  | SYS_ID_DFR0_EL1 => sysreg_word 3 0 0 1 2
  | SYS_ID_MMFR0_EL1 => sysreg_word 3 0 0 1 4
  | SYS_ID_MMFR1_EL1 => sysreg_word 3 0 0 1 5
  | SYS_ID_MMFR2_EL1 => sysreg_word 3 0 0 1 6
  | SYS_ID_MMFR3_EL1 => sysreg_word 3 0 0 1 7
  | SYS_ID_ISAR0_EL1 => sysreg_word 3 0 0 2 0
  | SYS_ID_ISAR1_EL1 => sysreg_word 3 0 0 2 1
  | SYS_ID_ISAR2_EL1 => sysreg_word 3 0 0 2 2
  | SYS_ID_ISAR3_EL1 => sysreg_word 3 0 0 2 3
  | SYS_ID_ISAR4_EL1 => sysreg_word 3 0 0 2 4
  | SYS_ID_ISAR5_EL1 => sysreg_word 3 0 0 2 5
  | SYS_MVFR0_EL1 => sysreg_word 3 0 0 3 0
  | SYS_MVFR1_EL1 => sysreg_word 3 0 0 3 1
  | SYS_MVFR2_EL1 => sysreg_word 3 0 0 3 2
  | SYS_ID_AA64PFR0_EL1 => sysreg_word 3 0 0 4 0
  | SYS_ID_AA64PFR1_EL1 => sysreg_word 3 0 0 4 1
  | SYS_ID_AA64DFR0_EL1 => sysreg_word 3 0 0 5 0
  | SYS_ID_AA64DFR1_EL1 => sysreg_word 3 0 0 5 1
  | SYS_ID_AA64ISAR0_EL1 => sysreg_word 3 0 0 6 0
  | SYS_ID_AA64ISAR1_EL1 => sysreg_word 3 0 0 6 1
  | SYS_ID_AA64MMFR0_EL1 => sysreg_word 3 0 0 7 0
  | SYS_ID_AA64MMFR1_EL1 => sysreg_word 3 0 0 7 1
  | SYS_ID_AA64MMFR2_EL1 => sysreg_word 3 0 0 7 2
  | SYS_CNTFRQ_EL0 => sysreg_word 3 3 14 0 0
  | SYS_CTR_EL0 => sysreg_word 3 3 0 0 1
  | SYS_DCZID_EL0 => sysreg_word 3 3 0 0 7
  end.

(** A signed four-bit field: [(s64)(features << (64 - 4 - field)) >> (64 - 4)]
    on a u64. *)
Definition extract_signed_field4 (features field : Z) : Z :=
  let shifted := Z.shiftl features (64 - 4 - field) mod 2 ^ 64 in
  let signed := if shifted <? 2 ^ 63 then shifted else shifted - 2 ^ 64 in
  Z.shiftr signed (64 - 4).

(** A core whose every identification register reads [v], but for the ones
    listed in [regs]. *)
Definition core_with (cpu : nat) (v : Z) (regs : list (sysreg * Z)) : core :=
  {| raw_smp_processor_id := cpu;
     id_regs := λ r, match list_find (λ p, p.1 = r) regs with
                     | Some (_, (_, x)) => x
                     | None => v
                     end |}.

(** A machine with cores 0..3 present and online, every core with a
    [cpu_die] hook, and an empty trace. *)
Definition machine_with (caps : gset N) (initialised : bool) : machine :=
  {| cpu_hwcaps := caps;
     sys_caps_initialised := initialised;
     cpu_present_mask := {[ 0%nat; 1%nat; 2%nat; 3%nat ]};
     cpu_online_mask := [0%nat; 1%nat; 2%nat; 3%nat];
     cpu_ops := λ _, Some {| cpu_die := true |};
     trace := [] |}.

(** Two entries that ask for re-verification on late cores, and their
    table. *)
Definition gic_entry : arm64_cpu_capabilities :=
  {| desc := Some "GIC system register CPU interface"%string;
     capability := 3%N;
     matches := Some has_id_aa64pfr0_feature;
     enable := None;
     sys_reg := armv8_encoding SYS_ID_AA64PFR0_EL1;
     field_pos := 24;
     min_field_value := 1 |}.

Definition pan_entry : arm64_cpu_capabilities :=
  {| desc := Some "Privileged Access Never"%string;
     capability := 4%N;
     matches := Some has_id_aa64mmfr1_feature;
     enable := Some cpu_enable_pan;
     sys_reg := armv8_encoding SYS_ID_AA64MMFR1_EL1;
     field_pos := 20;
     min_field_value := 1 |}.

Definition example_table : list arm64_cpu_capabilities :=
  [gic_entry; pan_entry; sentinel].

(** Core 1 has both features; core 2 lacks PAN. *)
Definition capable_core : core :=
  core_with 1 0 [(SYS_ID_AA64PFR0_EL1, 2 ^ 24); (SYS_ID_AA64MMFR1_EL1, 2 ^ 20)].

Definition incapable_core : core :=
  core_with 2 0 [(SYS_ID_AA64PFR0_EL1, 2 ^ 24)].

(** The machine before detection, and one on which both capabilities are
    committed and the flag is raised. *)
Definition booting_machine : machine := machine_with ∅ false.
Definition frozen_machine : machine := machine_with {[ 3%N; 4%N ]} true.

(** ** The program *)

Section Cpufeature.

(** What the file takes from headers that are not part of it. *)

(** asm/cpufeature.h: the field of an identification register that starts
    at bit [field], as an [int]. *)
Variable cpuid_feature_extract_field : Z → Z → Z.

(** asm/sysreg.h: the u32 identifier that stands for a register in a
    [sys_reg] field and in the [case] labels below. *)
Variable sys_reg_encoding : sysreg → Z.

(** asm/cpufeature.h: the capability numbers. *)
Variable ARM64_HAS_SYSREG_GIC_CPUIF : N.
Variable ARM64_HAS_PAN : N.

(** The build option that guards the second table entry. *)
Variable CONFIG_ARM64_PAN : bool.

(** *** Collaborators *)

(** [read_cpuid(reg)]: the calling core's value of [reg]. *)
Definition read_cpuid (this : core) (reg : sysreg) : M Z :=
  log (ev_read_cpuid (raw_smp_processor_id this) reg);;;
  ret (id_regs this reg).

(** Modelled from the spec: [cpus_have_cap], from asm/cpufeature.h, is the
    membership test of the Capability Set, a set of capability IDs. *)
Definition cpus_have_cap (num : N) : M bool :=
  get (λ m, bool_decide (num ∈ cpu_hwcaps m)).

(** Modelled from the spec: [cpus_set_cap], from asm/cpufeature.h, is the
    idempotent set-add of the Capability Set. *)
Definition cpus_set_cap (num : N) : M unit :=
  modify (with_hwcaps (λ s, s ∪ {[num]})).

Definition pr_info (info name : string) : M unit :=
  log (ev_pr_info info name).

Definition pr_crit (cpu : nat) (cap_type : string) (name : option string) : M unit :=
  log (ev_pr_crit cpu cap_type name).

(** Modelled from the spec: [set_cpu_present(cpu, present)], from
    linux/cpumask.h, marks a core present or absent to the rest of the
    system. *)
Definition set_cpu_present (cpu : nat) (present : bool) : M unit :=
  log (ev_set_cpu_present cpu present);;;
  modify (with_present (λ s, if present then s ∪ {[cpu]} else s ∖ {[cpu]})).

(** Modelled from the spec: [on_each_cpu(func, info, wait)], from
    kernel/smp.c, runs [func(info)] on every currently active core and,
    with [wait], returns only once all of them have run it. *)
Definition on_each_cpu (func : enable_fn) (info : arm64_cpu_capabilities)
    (wait : bool) : M unit :=
  log (ev_on_each_cpu func info wait);;;
  let* online := get cpu_online_mask in
  modify (emit (map (λ cpu, ev_enable cpu func (Some info)) online)).

(** A call of an [enable] hook on the calling core, with the entry as its
    argument or with none. *)
Definition call_enable (this : core) (fn : enable_fn)
    (arg : option arm64_cpu_capabilities) : M unit :=
  log (ev_enable (raw_smp_processor_id this) fn arg).

(** *** feature_matches *)

Definition feature_matches (reg : Z) (entry : arm64_cpu_capabilities) : bool :=
  let val := cpuid_feature_extract_field reg (field_pos entry) in
  val >=? min_field_value entry.

(** A call of [feature_matches], which the trace records. *)
Definition call_feature_matches (this : core) (reg : Z)
    (entry : arm64_cpu_capabilities) : M bool :=
  log (ev_feature_matches (raw_smp_processor_id this) reg entry);;;
  ret (feature_matches reg entry).

(** [has_id_aa64pfr0_feature] and [has_id_aa64mmfr1_feature]; the operand
    of [read_cpuid] is written [id_aa64pfr0_el1], [id_aa64mmfr1_el1]
    there. *)
Definition call_matches (this : core) (fn : match_fn)
    (entry : arm64_cpu_capabilities) : M bool :=
  match fn with
  | has_id_aa64pfr0_feature =>
      let* val := read_cpuid this SYS_ID_AA64PFR0_EL1 in
      call_feature_matches this val entry
  | has_id_aa64mmfr1_feature =>
      let* val := read_cpuid this SYS_ID_AA64MMFR1_EL1 in
      call_feature_matches this val entry
  end.

(** *** arm64_features *)

Definition arm64_features : list arm64_cpu_capabilities :=
  [ {| desc := Some "GIC system register CPU interface"%string;
       capability := ARM64_HAS_SYSREG_GIC_CPUIF;
       matches := Some has_id_aa64pfr0_feature;
       enable := None;
       sys_reg := 0;
       field_pos := 24;
       min_field_value := 1 |} ]
  ++ (if CONFIG_ARM64_PAN then
        [ {| desc := Some "Privileged Access Never"%string;
             capability := ARM64_HAS_PAN;
             matches := Some has_id_aa64mmfr1_feature;
             enable := Some cpu_enable_pan;
             sys_reg := 0;
             field_pos := 20;
             min_field_value := 1 |} ]
      else [])
  ++ [ sentinel ].

(** *** check_cpu_capabilities

    [for (i = 0; caps[i].desc; i++)], as a recursion on the part of the
    array that starts at [caps[i]]. *)
Fixpoint check_cpu_capabilities (this : core)
    (caps : list arm64_cpu_capabilities) (info : string) : M unit :=
  match caps with
  | [] => stop OUT_OF_BOUNDS
  | c :: rest =>
      match desc c with
      | None => ret tt
      | Some name =>
          match matches c with
          | None => stop NULL_CALL
          | Some fn =>
              let* matched := call_matches this fn c in
              if negb matched then check_cpu_capabilities this rest info
              else
                let* have := cpus_have_cap (capability c) in
                (if negb have then pr_info info name else ret tt);;;
                cpus_set_cap (capability c);;;
                check_cpu_capabilities this rest info
          end
      end
  end.

(** *** enable_cpu_capabilities

    [for (i = 0; caps[i].matches; i++)]. *)
Fixpoint enable_cpu_capabilities (caps : list arm64_cpu_capabilities) : M unit :=
  match caps with
  | [] => stop OUT_OF_BOUNDS
  | c :: rest =>
      match matches c with
      | None => ret tt
      | Some _ =>
          match enable c with
          | None => ret tt
          | Some fn =>
              let* have := cpus_have_cap (capability c) in
              if have then on_each_cpu fn c true else ret tt
          end;;;
          enable_cpu_capabilities rest
      end
  end.

Definition set_sys_caps_initialised : M unit :=
  modify (with_initialised true).

(** *** __raw_read_system_reg

    The [switch], one pair per [case] in source order: the label, and the
    operand of the [read_cpuid] it returns.  No label matching is the
    [default:] branch. *)
Definition raw_read_cases : list (sysreg * sysreg) :=
  [ (SYS_ID_PFR0_EL1, SYS_ID_PFR0_EL1);
    (SYS_ID_PFR1_EL1, SYS_ID_PFR1_EL1);
    (SYS_ID_DFR0_EL1, SYS_ID_DFR0_EL1);
    (SYS_ID_MMFR0_EL1, SYS_ID_MMFR0_EL1);
    (SYS_ID_MMFR1_EL1, SYS_ID_MMFR1_EL1);
    (SYS_ID_MMFR2_EL1, SYS_ID_MMFR2_EL1);
    (SYS_ID_MMFR3_EL1, SYS_ID_MMFR3_EL1);
    (SYS_ID_ISAR0_EL1, SYS_ID_ISAR0_EL1);
    (SYS_ID_ISAR1_EL1, SYS_ID_ISAR1_EL1);
    (SYS_ID_ISAR2_EL1, SYS_ID_ISAR2_EL1);
    (SYS_ID_ISAR3_EL1, SYS_ID_ISAR3_EL1);
    (SYS_ID_ISAR4_EL1, SYS_ID_ISAR4_EL1);
    (SYS_ID_ISAR5_EL1, SYS_ID_ISAR4_EL1);
    (SYS_MVFR0_EL1, SYS_MVFR0_EL1);
    (SYS_MVFR1_EL1, SYS_MVFR1_EL1);
    (SYS_MVFR2_EL1, SYS_MVFR2_EL1);
    (SYS_ID_AA64PFR0_EL1, SYS_ID_AA64PFR0_EL1);
    (SYS_ID_AA64PFR1_EL1, SYS_ID_AA64PFR0_EL1);
    (SYS_ID_AA64DFR0_EL1, SYS_ID_AA64DFR0_EL1);
    (SYS_ID_AA64DFR1_EL1, SYS_ID_AA64DFR0_EL1);
    (SYS_ID_AA64MMFR0_EL1, SYS_ID_AA64MMFR0_EL1);
    (SYS_ID_AA64MMFR1_EL1, SYS_ID_AA64MMFR1_EL1);
    (SYS_ID_AA64MMFR2_EL1, SYS_ID_AA64MMFR2_EL1);
    (SYS_ID_AA64ISAR0_EL1, SYS_ID_AA64ISAR0_EL1);
    (SYS_ID_AA64ISAR1_EL1, SYS_ID_AA64ISAR1_EL1);
    (SYS_CNTFRQ_EL0, SYS_CNTFRQ_EL0);
    (SYS_CTR_EL0, SYS_CTR_EL0);
    (SYS_DCZID_EL0, SYS_DCZID_EL0) ].

Fixpoint switch_sys_id (this : core) (sys_id : Z)
    (cases : list (sysreg * sysreg)) : M Z :=
  match cases with
  | [] =>
      log (ev_BUG (raw_smp_processor_id this));;;
      stop BUG
  | (label, operand) :: cases' =>
      if sys_id =? sys_reg_encoding label then read_cpuid this operand
      else switch_sys_id this sys_id cases'
  end.

Definition __raw_read_system_reg (this : core) (sys_id : Z) : M Z :=
  switch_sys_id this sys_id raw_read_cases.

(** *** fail_incapable_cpu

    The function ends in a [wfe]/[wfi] loop: it never returns. *)
Definition fail_incapable_cpu (this : core) (cap_type : string)
    (cap : arm64_cpu_capabilities) : M unit :=
  let cpu := raw_smp_processor_id this in
  pr_crit cpu cap_type (desc cap);;;
  set_cpu_present cpu false;;;
  (let* ops := get cpu_ops in
   match ops cpu with
   | Some o => if cpu_die o then log (ev_cpu_die cpu) else ret tt
   | None => ret tt
   end);;;
  stop PARKED.

(** *** verify_local_cpu_capabilities *)

(** The first loop, [for (i = 0; caps[i].matches; i++)]. *)
Fixpoint verify_first_pass (this : core)
    (caps : list arm64_cpu_capabilities) : M unit :=
  match caps with
  | [] => stop OUT_OF_BOUNDS
  | c :: rest =>
      match matches c with
      | None => ret tt
      | Some _ =>
          let* have := cpus_have_cap (capability c) in
          if negb have || (sys_reg c =? 0) then verify_first_pass this rest
          else
            let* reg := __raw_read_system_reg this (sys_reg c) in
            let* ok := call_feature_matches this reg c in
            (if negb ok then fail_incapable_cpu this "arm64_features" c
             else ret tt);;;
            match enable c with
            | Some fn => call_enable this fn (Some c)
            | None => ret tt
            end;;;
            verify_first_pass this rest
      end
  end.

(** The second loop, [for (i = 0; caps[i].desc; i++)]. *)
Fixpoint verify_second_pass (this : core)
    (caps : list arm64_cpu_capabilities) : M unit :=
  match caps with
  | [] => stop OUT_OF_BOUNDS
  | c :: rest =>
      match desc c with
      | None => ret tt
      | Some _ =>
          let* have := cpus_have_cap (capability c) in
          match enable c with
          | Some fn => if have then call_enable this fn None else ret tt
          | None => ret tt
          end;;;
          verify_second_pass this rest
      end
  end.

(** The body of the function for a table [caps]; the function itself binds
    [caps = arm64_features]. *)
Definition verify_capabilities (this : core)
    (caps : list arm64_cpu_capabilities) : M unit :=
  let* initialised := get sys_caps_initialised in
  if negb initialised then ret tt
  else
    verify_first_pass this caps;;;
    verify_second_pass this caps.

Definition verify_local_cpu_capabilities (this : core) : M unit :=
  verify_capabilities this arm64_features.

Definition check_local_cpu_features (this : core) : M unit :=
  check_cpu_capabilities this arm64_features "detected feature".


(** ** Definitions the statements use *)

(** The operand of the [case] that [sys_id] selects, [None] when it falls
    through to [default:]. *)
Fixpoint switch_operand (sys_id : Z) (cases : list (sysreg * sysreg)) : option sysreg :=
  match cases with
  | [] => None
  | (label, operand) :: cases' =>
      if sys_id =? sys_reg_encoding label then Some operand
      else switch_operand sys_id cases'
  end.

(** The identifiers the [switch] has a [case] for. *)
Definition enumerated (sys_id : Z) : Prop :=
  ∃ r : sysreg, sys_id = sys_reg_encoding r.

(** The calls of one [enable] hook, if the entry has one. *)
Definition enable_call (cpu : nat) (c : arm64_cpu_capabilities)
    (arg : option arm64_cpu_capabilities) : list event :=
  match enable c with
  | Some fn => [ev_enable cpu fn arg]
  | None => []
  end.

(** What [fail_incapable_cpu] leaves in the trace on a machine [m]. *)
Definition parking_events (this : core) (m : machine)
    (cap_type : string) (c : arm64_cpu_capabilities) : list event :=
  let cpu := raw_smp_processor_id this in
  [ev_pr_crit cpu cap_type (desc c); ev_set_cpu_present cpu false]
  ++ match cpu_ops m cpu with
     | Some o => if cpu_die o then [ev_cpu_die cpu] else []
     | None => []
     end.

(** One broadcast of the hook of [c]: the call of [on_each_cpu] with
    [wait] set, and the hook run with [c] as argument on each online
    core. *)
Definition broadcast (online : list nat) (c : arm64_cpu_capabilities) : list event :=
  match enable c with
  | Some fn =>
      ev_on_each_cpu fn c true :: map (λ cpu, ev_enable cpu fn (Some c)) online
  | None => []
  end.

(** The register a [matches] hook reads. *)
Definition match_operand (fn : match_fn) : sysreg :=
  match fn with
  | has_id_aa64pfr0_feature => SYS_ID_AA64PFR0_EL1
  | has_id_aa64mmfr1_feature => SYS_ID_AA64MMFR1_EL1
  end.

(** What the [matches] hook of [c] answers on core [this]. *)
Definition match_verdict (this : core) (c : arm64_cpu_capabilities) : bool :=
  match matches c with
  | Some fn => feature_matches (id_regs this (match_operand fn)) c
  | None => false
  end.

(** The capabilities of the entries of [entries] that match on [this]. *)
Definition detected (this : core) (entries : list arm64_cpu_capabilities) : gset N :=
  list_to_set (capability <$> filter (λ c, match_verdict this c) entries).

(** The entries that add their capability for the first time: those that
    match while their capability is neither in the set the walk started
    from nor the capability of an earlier matching entry. *)
Definition first_additions (this : core) (start : gset N)
    (entries : list arm64_cpu_capabilities) : list arm64_cpu_capabilities :=
  concat (imap (λ i c,
    if decide (match_verdict this c
               ∧ capability c ∉ start ∪ detected this (take i entries))
    then [c] else []) entries).

(** The diagnostic that names entry [c]. *)
Definition diagnostic (info : string) (c : arm64_cpu_capabilities) : list event :=
  match desc c with
  | Some name => [ev_pr_info info name]
  | None => []
  end.

Definition is_diagnostic (e : event) : bool :=
  match e with ev_pr_info _ _ => true | _ => false end.

(** The entries the first pass of the verifier looks at: the capability is
    committed and [sys_reg] is set. *)
Definition reverified (set : gset N) (c : arm64_cpu_capabilities) : Prop :=
  capability c ∈ set ∧ sys_reg c ≠ 0.

Global Instance reverified_dec set c : Decision (reverified set c).
Proof. unfold reverified. apply _. Defined.

(** The answer of the local re-check of [c] on core [this]: the matcher on
    the value the local query returns for [sys_reg c]; [None] when the query
    ends in [BUG()]. *)
Definition local_verdict (this : core) (c : arm64_cpu_capabilities) : option bool :=
  (λ operand, feature_matches (id_regs this operand) c)
    <$> switch_operand (sys_reg c) raw_read_cases.

(** What the local re-check of [c] leaves in the trace. *)
Definition local_check (this : core) (c : arm64_cpu_capabilities) : list event :=
  let cpu := raw_smp_processor_id this in
  match switch_operand (sys_reg c) raw_read_cases with
  | Some operand =>
      [ev_read_cpuid cpu operand; ev_feature_matches cpu (id_regs this operand) c]
  | None => [ev_BUG cpu]
  end.

(** The trace of a first pass in which every re-check succeeds. *)
Definition first_pass_trace (this : core) (set : gset N)
    (entries : list arm64_cpu_capabilities) : list event :=
  flat_map
    (λ c, local_check this c ++ enable_call (raw_smp_processor_id this) c (Some c))
    (filter (reverified set) entries).

(** The trace of the second pass. *)
Definition second_pass_trace (this : core) (set : gset N)
    (entries : list arm64_cpu_capabilities) : list event :=
  flat_map (λ c, enable_call (raw_smp_processor_id this) c None)
    (filter (λ c, capability c ∈ set) entries).

Definition is_enable_call (e : event) : bool :=
  match e with ev_enable _ _ _ => true | _ => false end.

(** An operation of the subsystem, with the core that runs it. *)
Inductive operation :=
| op_check_cpu_capabilities (this : core)
    (caps : list arm64_cpu_capabilities) (info : string)
| op_check_local_cpu_features (this : core)
| op_enable_cpu_capabilities (caps : list arm64_cpu_capabilities)
| op_set_sys_caps_initialised
| op_verify_capabilities (this : core) (caps : list arm64_cpu_capabilities)
| op_verify_local_cpu_capabilities (this : core).

Definition run_operation (op : operation) : M unit :=
  match op with
  | op_check_cpu_capabilities this caps info => check_cpu_capabilities this caps info
  | op_check_local_cpu_features this => check_local_cpu_features this
  | op_enable_cpu_capabilities caps => enable_cpu_capabilities caps
  | op_set_sys_caps_initialised => set_sys_caps_initialised
  | op_verify_capabilities this caps => verify_capabilities this caps
  | op_verify_local_cpu_capabilities this => verify_local_cpu_capabilities this
  end.

(** The operations that walk a table for detection. *)
Definition is_detection (op : operation) : bool :=
  match op with
  | op_check_cpu_capabilities _ _ _ | op_check_local_cpu_features _ => true
  | _ => false
  end.

(** The machine after a sequence of operations.  A core that halts in one of
    them leaves the machine to the cores that run the next ones. *)
Definition run_operations (ops : list operation) (m : machine) : machine :=
  foldl (λ m op, final (run_operation op m)) m ops.

(** A computation that leaves the Capability Set as it is, and one that can
    only add to it. *)
Definition keeps_hwcaps {A} (c : M A) : Prop :=
  ∀ m, cpu_hwcaps (final (c m)) = cpu_hwcaps m.

Definition grows_hwcaps {A} (c : M A) : Prop :=
  ∀ m, cpu_hwcaps m ⊆ cpu_hwcaps (final (c m)).

(** A computation that only adds to the trace, but that, when it parks the
    core, also takes core [cpu] out of the present mask. *)
Definition parks_or_traces {A} (cpu : nat) (c : M A) : Prop :=
  ∀ m, ∃ evs,
    match c m with
    | Halts PARKED m' => m' = with_present (λ s, s ∖ {[cpu]}) (emit evs m)
    | Returns _ m' | Halts _ m' => m' = emit evs m
    end.

(** A computation that leaves the boot-completion flag as it is. *)
Definition keeps_flag {A} (c : M A) : Prop :=
  ∀ m, sys_caps_initialised (final (c m)) = sys_caps_initialised m.

(** The events detection leaves: register reads, matcher calls and
    [pr_info] lines. *)
Definition is_detection_event (e : event) : bool :=
  match e with
  | ev_read_cpuid _ _ | ev_feature_matches _ _ _ | ev_pr_info _ _ => true
  | _ => false
  end.

(** The events of a broadcast: calls of [on_each_cpu] and runs of a hook. *)
Definition is_broadcast_event (e : event) : bool :=
  match e with
  | ev_on_each_cpu _ _ _ | ev_enable _ _ _ => true
  | _ => false
  end.

(** ** The monad's equations *)

Lemma emit_nil m : emit [] m = m.
Proof. destruct m; unfold emit; simpl. by rewrite app_nil_r. Qed.

Lemma emit_emit evs1 evs2 m : emit evs2 (emit evs1 m) = emit (evs1 ++ evs2) m.
Proof. unfold emit; simpl. by rewrite app_assoc. Qed.

Lemma read_cpuid_eq this reg m :
  read_cpuid this reg m
  = Returns (id_regs this reg)
      (emit [ev_read_cpuid (raw_smp_processor_id this) reg] m).
Proof. reflexivity. Qed.

Lemma call_feature_matches_eq this reg entry m :
  call_feature_matches this reg entry m
  = Returns (feature_matches reg entry)
      (emit [ev_feature_matches (raw_smp_processor_id this) reg entry] m).
Proof. reflexivity. Qed.

(** ** __raw_read_system_reg *)

Lemma switch_sys_id_eq this sys_id cases m :
  switch_sys_id this sys_id cases m
  = match switch_operand sys_id cases with
    | Some operand => read_cpuid this operand m
    | None => Halts BUG (emit [ev_BUG (raw_smp_processor_id this)] m)
    end.
Proof.
  induction cases as [|[label operand] cases IH]; simpl; [done|].
  by destruct (sys_id =? sys_reg_encoding label).
Qed.

Lemma switch_operand_None sys_id cases :
  (∀ r, sys_id ≠ sys_reg_encoding r) → switch_operand sys_id cases = None.
Proof.
  intros Hout. induction cases as [|[label operand] cases IH]; simpl; [done|].
  destruct (Z.eqb_spec sys_id (sys_reg_encoding label)) as [E|_]; [|done].
  by destruct (Hout label).
Qed.

Lemma switch_operand_Some r :
  is_Some (switch_operand (sys_reg_encoding r) raw_read_cases).
Proof.
  assert (∀ cases, existsb (λ p, bool_decide (p.1 = r)) cases = true →
            is_Some (switch_operand (sys_reg_encoding r) cases)) as Hin.
  { induction cases as [|[label operand] cases IH]; simpl; [done|].
    destruct (Z.eqb_spec (sys_reg_encoding r) (sys_reg_encoding label)) as [|E];
      [eauto|].
    rewrite bool_decide_eq_false_2; [done|]. by intros ->. }
  apply Hin. by destruct r.
Qed.

(** With pairwise distinct [case] labels, the label of [r] selects the
    first pair of the table that starts with [r]. *)
Lemma switch_operand_label `{!Inj (=) (=) sys_reg_encoding} r cases :
  switch_operand (sys_reg_encoding r) cases
  = snd <$> find (λ p, bool_decide (p.1 = r)) cases.
Proof.
  induction cases as [|[label operand] cases IH]; simpl; [done|].
  destruct (Z.eqb_spec (sys_reg_encoding r) (sys_reg_encoding label)) as [E|E].
  - apply (inj _) in E as ->. by rewrite bool_decide_eq_true_2.
  - rewrite bool_decide_eq_false_2; [done|]. by intros ->.
Qed.

(** X1: every label but three reads the register it names. *)
Lemma raw_read_own_register `{!Inj (=) (=) sys_reg_encoding} this r m :
  r ≠ SYS_ID_ISAR5_EL1 → r ≠ SYS_ID_AA64PFR1_EL1 → r ≠ SYS_ID_AA64DFR1_EL1 →
  __raw_read_system_reg this (sys_reg_encoding r) m = read_cpuid this r m.
Proof.
  intros H1 H2 H3. unfold __raw_read_system_reg.
  rewrite switch_sys_id_eq, switch_operand_label.
  by destruct r.
Qed.

(** C1: the local query does not return the register its identifier names
    in three cases.  Given [SYS_ID_ISAR5_EL1] it reads ID_ISAR4_EL1, given
    [SYS_ID_AA64PFR1_EL1] it reads ID_AA64PFR0_EL1, and given
    [SYS_ID_AA64DFR1_EL1] it reads ID_AA64DFR0_EL1. *)
Theorem raw_read_wrong_register `{!Inj (=) (=) sys_reg_encoding} this m :
  let cpu := raw_smp_processor_id this in
  __raw_read_system_reg this (sys_reg_encoding SYS_ID_ISAR5_EL1) m
    = Returns (id_regs this SYS_ID_ISAR4_EL1)
        (emit [ev_read_cpuid cpu SYS_ID_ISAR4_EL1] m)
  ∧ __raw_read_system_reg this (sys_reg_encoding SYS_ID_AA64PFR1_EL1) m
    = Returns (id_regs this SYS_ID_AA64PFR0_EL1)
        (emit [ev_read_cpuid cpu SYS_ID_AA64PFR0_EL1] m)
  ∧ __raw_read_system_reg this (sys_reg_encoding SYS_ID_AA64DFR1_EL1) m
    = Returns (id_regs this SYS_ID_AA64DFR0_EL1)
        (emit [ev_read_cpuid cpu SYS_ID_AA64DFR0_EL1] m).
Proof.
  unfold __raw_read_system_reg.
  rewrite !switch_sys_id_eq, !switch_operand_label. by simpl.
Qed.

(** ** feature_matches *)

(** C5: [feature_matches] is true exactly when the extracted field reaches
    [min_field_value]: false one below the threshold, true at it.  It is a
    function into [bool], so it has a value on every input. *)
Theorem feature_matches_threshold reg entry :
  let field := cpuid_feature_extract_field reg (field_pos entry) in
  (feature_matches reg entry = true ↔ field >= min_field_value entry)
  ∧ (field = min_field_value entry - 1 → feature_matches reg entry = false)
  ∧ (field = min_field_value entry → feature_matches reg entry = true).
Proof.
  unfold feature_matches; simpl.
  repeat split; intros; destruct (Z.geb_spec
    (cpuid_feature_extract_field reg (field_pos entry)) (min_field_value entry));
    (done || lia).
Qed.

(** ** verify_local_cpu_capabilities before the flag is raised *)

(** C7: while [sys_caps_initialised] is false the verifier returns at once
    and leaves the machine as it found it, trace included: no register is
    read, no matcher or enable hook runs, the core is not parked.  This
    holds for the table of the file and for any other. *)
Theorem verify_before_initialised this m :
  sys_caps_initialised m = false →
  verify_local_cpu_capabilities this m = Returns tt m
  ∧ ∀ caps, verify_capabilities this caps m = Returns tt m.
Proof.
  intros Hflag. unfold verify_local_cpu_capabilities, verify_capabilities, bind, get.
  by rewrite Hflag.
Qed.

(** ** The steps of the loops *)

Ltac unfold_monad :=
  unfold bind, ret, get, modify, log, stop, cpus_have_cap, cpus_set_cap,
    pr_info, pr_crit, set_cpu_present, on_each_cpu, call_enable; simpl.

Lemma fail_incapable_cpu_eq this cap_type c m :
  fail_incapable_cpu this cap_type c m
  = Halts PARKED
      (with_present (λ s, s ∖ {[raw_smp_processor_id this]})
         (emit (parking_events this m cap_type c) m)).
Proof.
  unfold fail_incapable_cpu, parking_events. unfold_monad.
  destruct (cpu_ops m (raw_smp_processor_id this)) as [[[]]|]; simpl;
    unfold with_present, emit; simpl; by rewrite <- ?app_assoc.
Qed.

Lemma verify_first_pass_end this c rest m :
  matches c = None → verify_first_pass this (c :: rest) m = Returns tt m.
Proof. intros Hc; simpl. by rewrite Hc. Qed.

Lemma verify_first_pass_skip this c rest m :
  is_Some (matches c) →
  capability c ∉ cpu_hwcaps m ∨ sys_reg c = 0 →
  verify_first_pass this (c :: rest) m = verify_first_pass this rest m.
Proof.
  intros [fn Hc] Hskip; simpl. rewrite Hc. unfold bind at 1; unfold cpus_have_cap, get.
  destruct Hskip as [Hcap| ->].
  - by rewrite bool_decide_eq_false_2.
  - by rewrite orb_true_r.
Qed.

(** The entry is looked at: the register is read and the matcher run. *)
Lemma verify_first_pass_check this c rest m operand :
  is_Some (matches c) →
  capability c ∈ cpu_hwcaps m → sys_reg c ≠ 0 →
  switch_operand (sys_reg c) raw_read_cases = Some operand →
  let cpu := raw_smp_processor_id this in
  let reg := id_regs this operand in
  let checked := emit [ev_read_cpuid cpu operand; ev_feature_matches cpu reg c] m in
  verify_first_pass this (c :: rest) m
  = if feature_matches reg c
    then verify_first_pass this rest (emit (enable_call cpu c (Some c)) checked)
    else fail_incapable_cpu this "arm64_features" c checked.
Proof.
  intros [fn Hc] Hcap Hreg Hop; simpl. rewrite Hc.
  unfold bind at 1; unfold cpus_have_cap, get.
  rewrite bool_decide_eq_true_2 by done.
  destruct (Z.eqb_spec (sys_reg c) 0) as [|_]; [done|]; simpl.
  unfold bind at 1. unfold __raw_read_system_reg.
  rewrite switch_sys_id_eq, Hop, read_cpuid_eq.
  unfold bind at 1. rewrite call_feature_matches_eq, emit_emit; simpl.
  destruct (feature_matches _ c); simpl.
  - unfold enable_call. destruct (enable c); unfold_monad.
    + by rewrite emit_emit.
    + by rewrite emit_nil.
  - unfold bind at 1. by rewrite fail_incapable_cpu_eq.
Qed.

(** The entry is looked at but its identifier has no [case]. *)
Lemma verify_first_pass_bug this c rest m :
  is_Some (matches c) →
  capability c ∈ cpu_hwcaps m → sys_reg c ≠ 0 →
  switch_operand (sys_reg c) raw_read_cases = None →
  verify_first_pass this (c :: rest) m
  = Halts BUG (emit [ev_BUG (raw_smp_processor_id this)] m).
Proof.
  intros [fn Hc] Hcap Hreg Hop; simpl. rewrite Hc.
  unfold bind at 1; unfold cpus_have_cap, get.
  rewrite bool_decide_eq_true_2 by done.
  destruct (Z.eqb_spec (sys_reg c) 0) as [|_]; [done|]; simpl.
  unfold bind at 1. unfold __raw_read_system_reg.
  by rewrite switch_sys_id_eq, Hop.
Qed.

Lemma verify_second_pass_end this c rest m :
  desc c = None → verify_second_pass this (c :: rest) m = Returns tt m.
Proof. intros Hc; simpl. by rewrite Hc. Qed.

Lemma verify_second_pass_step this c rest m :
  is_Some (desc c) →
  verify_second_pass this (c :: rest) m
  = verify_second_pass this rest
      (emit (if bool_decide (capability c ∈ cpu_hwcaps m)
             then enable_call (raw_smp_processor_id this) c None else []) m).
Proof.
  intros [name Hc]; simpl. rewrite Hc. unfold enable_call. unfold_monad.
  destruct (enable c), (bool_decide (capability c ∈ cpu_hwcaps m)); simpl;
    by rewrite ?emit_nil.
Qed.

(** ** verify_local_cpu_capabilities on arm64_features *)

(** C10: no entry of [arm64_features] sets [sys_reg].  Whatever the core's
    registers hold, the verifier returns: it reads no register, runs no
    matcher, parks nothing, and the only calls it makes are the second
    pass's [enable()] for the committed capabilities that have a hook. *)
Theorem verify_arm64_features_always_joins this m :
  Forall (λ c, sys_reg c = 0) arm64_features
  ∧ verify_local_cpu_capabilities this m
    = Returns tt
        (emit (if sys_caps_initialised m && CONFIG_ARM64_PAN
                  && bool_decide (ARM64_HAS_PAN ∈ cpu_hwcaps m)
               then [ev_enable (raw_smp_processor_id this) cpu_enable_pan None]
               else []) m).
Proof.
  split.
  { unfold arm64_features. destruct CONFIG_ARM64_PAN; repeat constructor. }
  unfold verify_local_cpu_capabilities, verify_capabilities, arm64_features.
  unfold bind at 1. unfold get at 1.
  destruct (sys_caps_initialised m); cbn [negb andb]; [|by rewrite emit_nil].
  unfold bind at 1.
  destruct CONFIG_ARM64_PAN; cbn [app andb].
  - rewrite !verify_first_pass_skip, verify_first_pass_end by (simpl; eauto).
    rewrite !verify_second_pass_step, verify_second_pass_end by (simpl; eauto).
    rewrite emit_emit. unfold enable_call; simpl.
    by destruct (bool_decide (ARM64_HAS_SYSREG_GIC_CPUIF ∈ cpu_hwcaps m)).
  - rewrite verify_first_pass_skip, verify_first_pass_end by (simpl; eauto).
    rewrite verify_second_pass_step, verify_second_pass_end by (simpl; eauto).
    unfold enable_call; simpl.
    by destruct (bool_decide (ARM64_HAS_SYSREG_GIC_CPUIF ∈ cpu_hwcaps m)).
Qed.

(** ** The default branch of __raw_read_system_reg *)

Lemma verify_first_pass_never_bug this caps m m' :
  Forall (λ c, sys_reg c = 0 ∨ enumerated (sys_reg c)) caps →
  verify_first_pass this caps m ≠ Halts BUG m'.
Proof.
  intros Hcaps. revert m.
  induction Hcaps as [|c rest Hc _ IH]; intros m; [done|].
  destruct (matches c) as [fn|] eqn:Hm;
    [|by rewrite verify_first_pass_end].
  destruct (decide (capability c ∈ cpu_hwcaps m)) as [Hcap|Hcap];
    [|rewrite verify_first_pass_skip by eauto; apply IH].
  destruct (decide (sys_reg c = 0)) as [Hz|Hz];
    [rewrite verify_first_pass_skip by eauto; apply IH|].
  destruct Hc as [|[r Hr]]; [done|].
  destruct (switch_operand_Some r) as [operand Hop]. rewrite <- Hr in Hop.
  rewrite (verify_first_pass_check _ _ _ _ operand) by eauto.
  destruct (feature_matches _ c); [apply IH|].
  by rewrite fail_incapable_cpu_eq.
Qed.

Lemma verify_second_pass_never_bug this caps m m' :
  verify_second_pass this caps m ≠ Halts BUG m'.
Proof.
  revert m. induction caps as [|c rest IH]; intros m; [done|].
  destruct (desc c) as [name|] eqn:Hd;
    [|by rewrite verify_second_pass_end].
  rewrite verify_second_pass_step by eauto. apply IH.
Qed.

(** C9: an identifier without a [case] takes the core into [BUG()] and no
    value is returned, while every enumerated identifier does return one.
    When each [sys_reg] of the table is unset or enumerated, hotplug
    verification never ends in [BUG()]. *)
Theorem raw_read_bug_outside_enumeration this :
  (∀ sys_id m, ¬ enumerated sys_id →
     __raw_read_system_reg this sys_id m
     = Halts BUG (emit [ev_BUG (raw_smp_processor_id this)] m))
  ∧ (∀ sys_id m, enumerated sys_id →
       ∃ reg m', __raw_read_system_reg this sys_id m = Returns reg m')
  ∧ (∀ caps m m',
       Forall (λ c, sys_reg c = 0 ∨ enumerated (sys_reg c)) caps →
       verify_capabilities this caps m ≠ Halts BUG m').
Proof.
  split; [|split].
  - intros sys_id m Hout. unfold __raw_read_system_reg.
    rewrite switch_sys_id_eq, switch_operand_None; [done|].
    intros r ->. apply Hout. by exists r.
  - intros sys_id m [r ->]. unfold __raw_read_system_reg.
    rewrite switch_sys_id_eq.
    destruct (switch_operand_Some r) as [operand ->].
    rewrite read_cpuid_eq. eauto.
  - intros caps m m' Hcaps. unfold verify_capabilities.
    unfold bind at 1, get at 1.
    destruct (sys_caps_initialised m); cbn [negb]; [|done].
    unfold bind.
    destruct (verify_first_pass this caps m) as [[] m1|h m1] eqn:Hfirst.
    + apply verify_second_pass_never_bug.
    + intros [= -> ->]. by apply verify_first_pass_never_bug in Hfirst.
Qed.

(** ** enable_cpu_capabilities *)

Lemma enable_cpu_capabilities_end c rest m :
  matches c = None → enable_cpu_capabilities (c :: rest) m = Returns tt m.
Proof. intros Hc; simpl. by rewrite Hc. Qed.

Lemma enable_cpu_capabilities_step c rest m :
  is_Some (matches c) →
  enable_cpu_capabilities (c :: rest) m
  = enable_cpu_capabilities rest
      (emit (if decide (is_Some (enable c) ∧ capability c ∈ cpu_hwcaps m)
             then broadcast (cpu_online_mask m) c else []) m).
Proof.
  intros [mfn Hc]; simpl. rewrite Hc. unfold broadcast.
  destruct (enable c) as [fn|]; unfold_monad.
  - destruct (decide (capability c ∈ cpu_hwcaps m)) as [Hcap|Hcap].
    + rewrite bool_decide_eq_true_2, decide_True by eauto.
      unfold_monad. by rewrite emit_emit.
    + rewrite bool_decide_eq_false_2 by done.
      rewrite decide_False by (by intros [_ ?]).
      by rewrite emit_nil.
  - by rewrite emit_nil.
Qed.

Lemma filter_none {A} (P : A → Prop) `{!∀ x, Decision (P x)} (l : list A) :
  (∀ x, ¬ P x) → filter P l = [].
Proof.
  intros HP. induction l as [|x l IH]; [done|].
  by rewrite filter_cons_False.
Qed.

(** C6: the walk makes one [on_each_cpu] broadcast, with [wait] set, for
    each entry that has an [enable] hook and a committed capability, in
    table order, and nothing else; with an empty Capability Set it makes
    no call at all. *)
Theorem enable_cpu_capabilities_broadcasts entries s post m :
  Forall (λ c, is_Some (matches c)) entries →
  matches s = None →
  enable_cpu_capabilities (entries ++ s :: post) m
  = Returns tt
      (emit (flat_map (broadcast (cpu_online_mask m))
               (filter (λ c, is_Some (enable c) ∧ capability c ∈ cpu_hwcaps m)
                  entries)) m)
  ∧ (cpu_hwcaps m = ∅ →
     enable_cpu_capabilities (entries ++ s :: post) m = Returns tt m).
Proof.
  intros Hentries Hs.
  assert (∀ m, enable_cpu_capabilities (entries ++ s :: post) m
    = Returns tt
        (emit (flat_map (broadcast (cpu_online_mask m))
                 (filter (λ c, is_Some (enable c) ∧ capability c ∈ cpu_hwcaps m)
                    entries)) m)) as Hwalk.
  { clear m. induction Hentries as [|c entries Hc _ IH]; intros m; simpl app.
    - rewrite enable_cpu_capabilities_end by done. by rewrite emit_nil.
    - rewrite enable_cpu_capabilities_step, IH by done.
      rewrite emit_emit, filter_cons. simpl.
      by destruct (decide (is_Some (enable c) ∧ capability c ∈ cpu_hwcaps m)). }
  split; [apply Hwalk|].
  intros Hempty. rewrite Hwalk.
  rewrite filter_none, emit_nil; [done|].
  intros c [_ Hin]. rewrite Hempty in Hin. set_solver.
Qed.

(** ** check_cpu_capabilities *)

Lemma with_hwcaps_emit f evs m :
  with_hwcaps f (emit evs m) = emit evs (with_hwcaps f m).
Proof. reflexivity. Qed.

Lemma with_hwcaps_compose f g m :
  with_hwcaps g (with_hwcaps f m) = with_hwcaps (g ∘ f) m.
Proof. reflexivity. Qed.

Lemma with_hwcaps_const (s : gset N) f m :
  f (cpu_hwcaps m) = s → with_hwcaps f m = with_hwcaps (λ _, s) m.
Proof. intros <-. reflexivity. Qed.

Lemma call_matches_eq this fn c m :
  call_matches this fn c m
  = Returns (feature_matches (id_regs this (match_operand fn)) c)
      (emit [ev_read_cpuid (raw_smp_processor_id this) (match_operand fn);
             ev_feature_matches (raw_smp_processor_id this)
               (id_regs this (match_operand fn)) c] m).
Proof.
  destruct fn; unfold call_matches, bind;
    by rewrite read_cpuid_eq, call_feature_matches_eq, emit_emit.
Qed.

Lemma check_cpu_capabilities_end this c rest info m :
  desc c = None → check_cpu_capabilities this (c :: rest) info m = Returns tt m.
Proof. intros Hc; simpl. by rewrite Hc. Qed.

(** One turn of the loop on an entry that has a name and a hook: a
    diagnostic is printed exactly when the entry matches and its capability
    is not in the set yet. *)
Lemma check_cpu_capabilities_step this c rest info m :
  is_Some (desc c) → is_Some (matches c) →
  ∃ evs,
    check_cpu_capabilities this (c :: rest) info m
    = check_cpu_capabilities this rest info
        (with_hwcaps (λ s, if match_verdict this c then s ∪ {[capability c]} else s)
           (emit evs m))
    ∧ filter (λ e, is_diagnostic e) evs
      = if decide (match_verdict this c ∧ capability c ∉ cpu_hwcaps m)
        then diagnostic info c else [].
Proof.
  intros [name Hd] [fn Hm]. simpl. rewrite Hd, Hm.
  unfold bind at 1. rewrite call_matches_eq.
  unfold match_verdict, diagnostic. rewrite Hd, Hm.
  destruct (feature_matches _ c); cbn [negb].
  - unfold_monad.
    destruct (decide (capability c ∈ cpu_hwcaps m)) as [Hcap|Hcap].
    + rewrite bool_decide_eq_true_2 by done. cbn [negb]. unfold_monad.
      eexists. split; [reflexivity|].
      rewrite decide_False by (by intros [_ ?]). done.
    + rewrite bool_decide_eq_false_2 by done. cbn [negb]. unfold_monad.
      eexists. split; [by rewrite emit_emit|].
      rewrite decide_True by done. done.
  - eexists. split.
    + by destruct m.
    + rewrite decide_False by (by intros [? _]). done.
Qed.

Lemma first_additions_cons this start c entries :
  first_additions this start (c :: entries)
  = (if decide (match_verdict this c ∧ capability c ∉ start) then [c] else [])
    ++ first_additions this
         (if match_verdict this c then start ∪ {[capability c]} else start)
         entries.
Proof.
  unfold first_additions. rewrite imap_cons. cbn [concat]. f_equal.
  - unfold detected; simpl. by rewrite (right_id_L ∅ (∪)).
  - f_equal. apply imap_ext. intros i x _; simpl.
    unfold detected. rewrite filter_cons.
    destruct (match_verdict this c); simpl.
    + by rewrite (assoc_L (∪)).
    + done.
Qed.

(** The whole walk: what it returns, and the diagnostics it prints. *)
Lemma check_cpu_capabilities_walk this entries s post info :
  Forall (λ c, is_Some (desc c) ∧ is_Some (matches c)) entries →
  desc s = None →
  ∀ m, ∃ evs,
    check_cpu_capabilities this (entries ++ s :: post) info m
    = Returns tt (with_hwcaps (λ set, set ∪ detected this entries) (emit evs m))
    ∧ filter (λ e, is_diagnostic e) evs
      = flat_map (diagnostic info) (first_additions this (cpu_hwcaps m) entries).
Proof.
  intros Hentries Hs.
  induction Hentries as [|c entries [Hd Hm] _ IH]; intros m; simpl app.
  - exists []. rewrite check_cpu_capabilities_end by done.
    split; [|done]. destruct m; unfold with_hwcaps, emit, detected; simpl.
    by rewrite app_nil_r, (right_id_L ∅ (∪)).
  - destruct (check_cpu_capabilities_step this c (entries ++ s :: post) info m)
      as (evs1 & -> & Hdiag1); [done..|].
    destruct (IH (with_hwcaps
      (λ s, if match_verdict this c then s ∪ {[capability c]} else s)
      (emit evs1 m))) as (evs2 & -> & Hdiag2).
    exists (evs1 ++ evs2). split.
    + rewrite !with_hwcaps_emit, emit_emit, with_hwcaps_compose.
      do 2 f_equal. apply with_hwcaps_const; simpl.
      unfold detected. rewrite filter_cons.
      destruct (match_verdict this c); simpl; [|done].
      by rewrite (assoc_L (∪)).
    + rewrite filter_app, Hdiag1, Hdiag2, first_additions_cons, flat_map_app.
      f_equal. destruct (decide _); simpl; [|done]. by rewrite app_nil_r.
Qed.

(** Nothing is a first addition once the set holds what the table detects. *)
Lemma first_additions_nil this start entries :
  detected this entries ⊆ start → first_additions this start entries = [].
Proof.
  revert start. induction entries as [|c entries IH]; intros start Hsub; [done|].
  rewrite first_additions_cons. unfold detected in Hsub.
  rewrite filter_cons in Hsub.
  destruct (match_verdict this c) eqn:Hv; simpl in Hsub.
  - rewrite decide_False.
    + apply IH. intros id Hid. by apply elem_of_union_l, Hsub, elem_of_union_r.
    + intros [_ Hnot]. by apply Hnot, Hsub, elem_of_union_l, elem_of_singleton_2.
  - rewrite decide_False by (by intros [? _]).
    by apply IH.
Qed.

(** C4: on a table of named entries with hooks, closed by an entry without
    a name, detection returns; it leaves in the Capability Set what was
    there and the capabilities of the entries that matched on this core, so
    from an empty set exactly those; and it prints one diagnostic for each
    first addition, in table order, and no other. *)
Theorem check_cpu_capabilities_detects this entries s post info m :
  Forall (λ c, is_Some (desc c) ∧ is_Some (matches c)) entries →
  desc s = None →
  ∃ evs,
    let m' :=
      with_hwcaps (λ set, set ∪ detected this entries) (emit evs m) in
    check_cpu_capabilities this (entries ++ s :: post) info m = Returns tt m'
    ∧ (cpu_hwcaps m = ∅ →
       ∀ id, id ∈ cpu_hwcaps m'
             ↔ ∃ c, c ∈ entries ∧ match_verdict this c ∧ capability c = id)
    ∧ filter (λ e, is_diagnostic e) evs
      = flat_map (diagnostic info) (first_additions this (cpu_hwcaps m) entries).
Proof.
  intros Hentries Hs.
  destruct (check_cpu_capabilities_walk this entries s post info Hentries Hs m)
    as (evs & Hrun & Hdiag).
  exists evs. simpl. split; [done|]. split; [|done].
  intros Hempty id. rewrite Hempty, (left_id_L ∅ (∪)).
  unfold detected. rewrite elem_of_list_to_set, list_elem_of_fmap.
  split.
  - intros (c & -> & Hc). apply list_elem_of_filter in Hc as [Hv Hc]. eauto.
  - intros (c & Hc & Hv & <-). exists c. split; [done|].
    by apply list_elem_of_filter.
Qed.

(** X2: detection run a second time on the same core and table returns
    again, leaves the Capability Set as the first run left it, and prints no
    diagnostic. *)
Theorem check_cpu_capabilities_twice this entries s post info m :
  Forall (λ c, is_Some (desc c) ∧ is_Some (matches c)) entries →
  desc s = None →
  let caps := entries ++ s :: post in
  ∃ m1 m2,
    check_cpu_capabilities this caps info m = Returns tt m1
    ∧ check_cpu_capabilities this caps info m1 = Returns tt m2
    ∧ cpu_hwcaps m2 = cpu_hwcaps m1
    ∧ filter (λ e, is_diagnostic e) (drop (length (trace m1)) (trace m2)) = [].
Proof.
  intros Hentries Hs caps.
  destruct (check_cpu_capabilities_walk this entries s post info Hentries Hs m)
    as (evs1 & Hrun1 & _).
  eexists. destruct (check_cpu_capabilities_walk this entries s post info
    Hentries Hs (with_hwcaps (λ set, set ∪ detected this entries) (emit evs1 m)))
    as (evs2 & Hrun2 & Hdiag2).
  eexists. split; [exact Hrun1|]. split; [exact Hrun2|]. split.
  - simpl. by rewrite <- (assoc_L (∪)), (idemp_L (∪) (detected _ _)).
  - simpl. rewrite drop_app_length, Hdiag2.
    rewrite first_additions_nil; [done|]. simpl. apply union_subseteq_r.
Qed.

(** ** verify_local_cpu_capabilities after the flag is raised *)

Lemma filter_enable_call_local_check this c :
  filter (λ e, is_enable_call e) (local_check this c) = [].
Proof. unfold local_check. by destruct (switch_operand _ _). Qed.

Lemma filter_enable_call_enable_call cpu c arg :
  filter (λ e, is_enable_call e) (enable_call cpu c arg) = enable_call cpu c arg.
Proof. unfold enable_call. by destruct (enable c). Qed.

Lemma filter_enable_call_parking_events this m cap_type c :
  filter (λ e, is_enable_call e) (parking_events this m cap_type c) = [].
Proof.
  unfold parking_events.
  by destruct (cpu_ops m (raw_smp_processor_id this)) as [[[]]|].
Qed.

Lemma filter_enable_call_first_pass_trace this set entries :
  filter (λ e, is_enable_call e) (first_pass_trace this set entries)
  = flat_map (λ c, enable_call (raw_smp_processor_id this) c (Some c))
      (filter (reverified set) entries).
Proof.
  unfold first_pass_trace.
  induction (filter (reverified set) entries) as [|c l IH]; [done|]; simpl.
  rewrite !filter_app, filter_enable_call_local_check,
    filter_enable_call_enable_call, IH. done.
Qed.

Lemma filter_enable_call_second_pass_trace this set entries :
  filter (λ e, is_enable_call e) (second_pass_trace this set entries)
  = second_pass_trace this set entries.
Proof.
  unfold second_pass_trace.
  induction (filter (λ c, capability c ∈ set) entries) as [|c l IH]; [done|]; simpl.
  by rewrite filter_app, filter_enable_call_enable_call, IH.
Qed.

(** The first pass walks over entries whose re-check succeeds. *)
Lemma verify_first_pass_app this pre rest m :
  Forall (λ c, is_Some (matches c)
               ∧ (reverified (cpu_hwcaps m) c → local_verdict this c = Some true)) pre →
  verify_first_pass this (pre ++ rest) m
  = verify_first_pass this rest (emit (first_pass_trace this (cpu_hwcaps m) pre) m).
Proof.
  intros Hpre. revert m Hpre.
  induction pre as [|c pre IH]; intros m Hpre; simpl app.
  { by rewrite emit_nil. }
  apply Forall_cons in Hpre as [[Hm Hok] Hpre].
  unfold first_pass_trace. rewrite filter_cons.
  destruct (decide (reverified (cpu_hwcaps m) c)) as [Hrev|Hrev].
  - specialize (Hok Hrev). destruct Hrev as [Hcap Hreg].
    unfold local_verdict in Hok. cbn [flat_map]. unfold local_check at 1.
    destruct (switch_operand (sys_reg c) raw_read_cases) as [operand|] eqn:Hop;
      [|done].
    injection Hok as Hok.
    rewrite (verify_first_pass_check _ _ _ _ operand), Hok by done.
    rewrite IH by done. rewrite !emit_emit. cbn [cpu_hwcaps emit].
    by rewrite <- !app_assoc.
  - rewrite verify_first_pass_skip; [by apply IH|done|].
    unfold reverified in Hrev.
    destruct (decide (capability c ∈ cpu_hwcaps m)); [|by left].
    destruct (decide (sys_reg c = 0)); [by right|]. naive_solver.
Qed.

(** The second pass walks over named entries. *)
Lemma verify_second_pass_app this entries rest m :
  Forall (λ c, is_Some (desc c)) entries →
  verify_second_pass this (entries ++ rest) m
  = verify_second_pass this rest
      (emit (second_pass_trace this (cpu_hwcaps m) entries) m).
Proof.
  intros Hentries. revert m.
  induction Hentries as [|c entries Hd _ IH]; intros m; simpl app.
  { by rewrite emit_nil. }
  rewrite verify_second_pass_step, IH by done.
  rewrite emit_emit. unfold second_pass_trace. rewrite filter_cons.
  cbn [cpu_hwcaps emit].
  destruct (decide (capability c ∈ cpu_hwcaps m)).
  - by rewrite bool_decide_eq_true_2.
  - by rewrite bool_decide_eq_false_2.
Qed.

(** C2: with the flag raised, the verifier parks the core at the first
    entry it re-checks that fails the local match.  The entries before it
    have been handled as in a successful first pass; then come the critical
    diagnostic that names the core and the entry, [set_cpu_present(cpu, 0)]
    and, if the core has one, its [cpu_die] hook; the core leaves the present
    mask and the function never returns.  The only [enable] calls made are
    those of the entries before the failing one. *)
Theorem verify_parks_at_first_mismatch this pre c post m :
  sys_caps_initialised m = true →
  Forall (λ c', is_Some (matches c')
                ∧ (reverified (cpu_hwcaps m) c' → local_verdict this c' = Some true))
    pre →
  is_Some (matches c) →
  reverified (cpu_hwcaps m) c →
  local_verdict this c = Some false →
  let cpu := raw_smp_processor_id this in
  let before := first_pass_trace this (cpu_hwcaps m) pre ++ local_check this c in
  let parking :=
    [ev_pr_crit cpu "arm64_features" (desc c); ev_set_cpu_present cpu false]
    ++ match cpu_ops m cpu with
       | Some ops => if cpu_die ops then [ev_cpu_die cpu] else []
       | None => []
       end in
  verify_capabilities this (pre ++ c :: post) m
  = Halts PARKED
      (with_present (λ s, s ∖ {[cpu]}) (emit (before ++ parking) m))
  ∧ filter (λ e, is_enable_call e) (before ++ parking)
    = flat_map (λ c', enable_call cpu c' (Some c'))
        (filter (reverified (cpu_hwcaps m)) pre).
Proof.
  intros Hflag Hpre Hm [Hcap Hreg] Hfail cpu before parking.
  split.
  - unfold verify_capabilities. unfold bind at 1, get at 1.
    rewrite Hflag. cbn [negb]. unfold bind.
    rewrite verify_first_pass_app by done.
    unfold local_verdict in Hfail. subst before. unfold local_check.
    destruct (switch_operand (sys_reg c) raw_read_cases) as [operand|] eqn:Hop;
      [|done].
    injection Hfail as Hfail.
    rewrite (verify_first_pass_check _ _ _ _ operand), Hfail by done.
    rewrite fail_incapable_cpu_eq, !emit_emit. unfold parking_events.
    by rewrite <- !app_assoc.
  - subst before. rewrite !filter_app, filter_enable_call_first_pass_trace,
      filter_enable_call_local_check.
    change parking with (parking_events this m "arm64_features" c).
    by rewrite filter_enable_call_parking_events, !app_nil_r.
Qed.

(** C3: with the flag raised and every re-checked entry matching locally,
    the verifier makes two passes over the table and returns.  The first
    calls [enable] with the entry as argument, once for every entry that has
    [sys_reg] set, a committed capability and a hook; the second calls
    [enable] without argument, once for every entry that has a committed
    capability and a hook.  Those are all the [enable] calls, in that
    order. *)
Theorem verify_joins_after_two_passes this entries s post m :
  sys_caps_initialised m = true →
  Forall (λ c, is_Some (desc c) ∧ is_Some (matches c)) entries →
  desc s = None → matches s = None →
  Forall (λ c, reverified (cpu_hwcaps m) c → local_verdict this c = Some true)
    entries →
  let cpu := raw_smp_processor_id this in
  let evs := first_pass_trace this (cpu_hwcaps m) entries
             ++ second_pass_trace this (cpu_hwcaps m) entries in
  verify_capabilities this (entries ++ s :: post) m = Returns tt (emit evs m)
  ∧ filter (λ e, is_enable_call e) evs
    = flat_map (λ c, enable_call cpu c (Some c))
        (filter (λ c, capability c ∈ cpu_hwcaps m ∧ sys_reg c ≠ 0) entries)
      ++ flat_map (λ c, enable_call cpu c None)
           (filter (λ c, capability c ∈ cpu_hwcaps m) entries).
Proof.
  intros Hflag Hentries Hd Hm Hok cpu evs. split.
  - unfold verify_capabilities. unfold bind at 1, get at 1.
    rewrite Hflag. cbn [negb]. unfold bind.
    rewrite verify_first_pass_app, verify_first_pass_end; [|done|].
    + rewrite verify_second_pass_app, verify_second_pass_end; [|done|].
      * by rewrite emit_emit.
      * eapply Forall_impl; [exact Hentries|]. by intros c [? _].
    + apply Forall_and. split; [|done].
      eapply Forall_impl; [exact Hentries|]. by intros c [_ ?].
  - subst evs. rewrite filter_app, filter_enable_call_first_pass_trace,
      filter_enable_call_second_pass_trace. done.
Qed.

(** ** The Capability Set over time *)

Lemma keeps_hwcaps_bind {A B} (c : M A) (k : A → M B) :
  keeps_hwcaps c → (∀ a, keeps_hwcaps (k a)) → keeps_hwcaps (bind c k).
Proof.
  intros Hc Hk m. unfold bind. specialize (Hc m).
  destruct (c m) as [a m1|h m1]; simpl in *; [|done].
  by rewrite Hk.
Qed.

Lemma grows_hwcaps_bind {A B} (c : M A) (k : A → M B) :
  grows_hwcaps c → (∀ a, grows_hwcaps (k a)) → grows_hwcaps (bind c k).
Proof.
  intros Hc Hk m. unfold bind. specialize (Hc m).
  destruct (c m) as [a m1|h m1]; simpl in *; [|done].
  etrans; [exact Hc|apply Hk].
Qed.

Lemma keeps_grows_hwcaps {A} (c : M A) : keeps_hwcaps c → grows_hwcaps c.
Proof. intros Hc m. by rewrite Hc. Qed.

Lemma keeps_hwcaps_ret {A} (a : A) : keeps_hwcaps (ret a).
Proof. done. Qed.
Lemma keeps_hwcaps_stop {A} h : keeps_hwcaps (@stop A h).
Proof. done. Qed.
Lemma keeps_hwcaps_get {A} (f : machine → A) : keeps_hwcaps (get f).
Proof. done. Qed.
Lemma keeps_hwcaps_log e : keeps_hwcaps (log e).
Proof. done. Qed.
Lemma keeps_hwcaps_emit evs : keeps_hwcaps (modify (emit evs)).
Proof. done. Qed.
Lemma keeps_hwcaps_with_present f : keeps_hwcaps (modify (with_present f)).
Proof. done. Qed.
Lemma keeps_hwcaps_with_initialised b : keeps_hwcaps (modify (with_initialised b)).
Proof. done. Qed.
Lemma keeps_hwcaps_cpus_have_cap num : keeps_hwcaps (cpus_have_cap num).
Proof. done. Qed.
Lemma grows_hwcaps_cpus_set_cap num : grows_hwcaps (cpus_set_cap num).
Proof. intros m; simpl. set_solver. Qed.

Create HintDb hwcaps.
Local Hint Resolve keeps_hwcaps_ret keeps_hwcaps_stop keeps_hwcaps_get keeps_hwcaps_log
  keeps_hwcaps_emit keeps_hwcaps_with_present keeps_hwcaps_with_initialised
  keeps_hwcaps_cpus_have_cap grows_hwcaps_cpus_set_cap keeps_grows_hwcaps : hwcaps.

(** Takes a computation apart along its binds and branches. *)
Ltac hwcaps_step :=
  match goal with
  | |- keeps_hwcaps (bind _ _) => apply keeps_hwcaps_bind; [|intros ?]
  | |- grows_hwcaps (bind _ _) => apply grows_hwcaps_bind; [|intros ?]
  | |- _ (match ?x with _ => _ end) => destruct x
  end.

Lemma keeps_hwcaps_read_cpuid this reg : keeps_hwcaps (read_cpuid this reg).
Proof. done. Qed.

Lemma keeps_hwcaps_call_feature_matches this reg c :
  keeps_hwcaps (call_feature_matches this reg c).
Proof. done. Qed.

Lemma keeps_hwcaps_call_matches this fn c : keeps_hwcaps (call_matches this fn c).
Proof. intros m. by rewrite call_matches_eq. Qed.

Lemma keeps_hwcaps_raw_read this sys_id :
  keeps_hwcaps (__raw_read_system_reg this sys_id).
Proof.
  intros m. unfold __raw_read_system_reg. rewrite switch_sys_id_eq.
  by destruct (switch_operand _ _).
Qed.

Lemma keeps_hwcaps_fail_incapable_cpu this cap_type c :
  keeps_hwcaps (fail_incapable_cpu this cap_type c).
Proof. intros m. by rewrite fail_incapable_cpu_eq. Qed.

Lemma keeps_hwcaps_on_each_cpu fn c wait : keeps_hwcaps (on_each_cpu fn c wait).
Proof. done. Qed.

Lemma keeps_hwcaps_call_enable this fn arg : keeps_hwcaps (call_enable this fn arg).
Proof. done. Qed.

Lemma keeps_hwcaps_pr_info info name : keeps_hwcaps (pr_info info name).
Proof. done. Qed.

Local Hint Resolve keeps_hwcaps_read_cpuid keeps_hwcaps_call_feature_matches
  keeps_hwcaps_call_matches keeps_hwcaps_raw_read keeps_hwcaps_fail_incapable_cpu
  keeps_hwcaps_on_each_cpu keeps_hwcaps_call_enable keeps_hwcaps_pr_info : hwcaps.

Lemma grows_hwcaps_check_cpu_capabilities this caps info :
  grows_hwcaps (check_cpu_capabilities this caps info).
Proof.
  induction caps as [|c rest IH]; simpl; [auto with hwcaps|].
  repeat hwcaps_step; auto with hwcaps.
Qed.

Lemma keeps_hwcaps_enable_cpu_capabilities caps :
  keeps_hwcaps (enable_cpu_capabilities caps).
Proof.
  induction caps as [|c rest IH]; simpl; [auto with hwcaps|].
  repeat hwcaps_step; auto with hwcaps.
Qed.

Lemma keeps_hwcaps_verify_first_pass this caps :
  keeps_hwcaps (verify_first_pass this caps).
Proof.
  induction caps as [|c rest IH]; simpl; [auto with hwcaps|].
  repeat hwcaps_step; auto with hwcaps.
Qed.

Lemma keeps_hwcaps_verify_second_pass this caps :
  keeps_hwcaps (verify_second_pass this caps).
Proof.
  induction caps as [|c rest IH]; simpl; [auto with hwcaps|].
  repeat hwcaps_step; auto with hwcaps.
Qed.

Lemma keeps_hwcaps_verify_capabilities this caps :
  keeps_hwcaps (verify_capabilities this caps).
Proof.
  unfold verify_capabilities.
  repeat hwcaps_step;
    auto using keeps_hwcaps_verify_first_pass, keeps_hwcaps_verify_second_pass
      with hwcaps.
Qed.

Lemma keeps_hwcaps_other_operations op :
  is_detection op = false → keeps_hwcaps (run_operation op).
Proof.
  destruct op; simpl; intros Hop; try done.
  - apply keeps_hwcaps_enable_cpu_capabilities.
  - apply keeps_hwcaps_verify_capabilities.
  - apply keeps_hwcaps_verify_capabilities.
Qed.

Lemma grows_hwcaps_run_operation op : grows_hwcaps (run_operation op).
Proof.
  destruct (is_detection op) eqn:Hop.
  - destruct op; try done; apply grows_hwcaps_check_cpu_capabilities.
  - by apply keeps_grows_hwcaps, keeps_hwcaps_other_operations.
Qed.

(** C8: over any sequence of detection, enabling, flag raising and hotplug
    verification, on any cores and tables, every capability in the set at the
    start is in the set at the end.  An operation other than the detection
    walk leaves the set exactly as it was; that holds for
    [enable_cpu_capabilities] and [verify_local_cpu_capabilities], also when
    the latter parks its core. *)
Theorem cpu_hwcaps_monotone :
  (∀ ops m, cpu_hwcaps m ⊆ cpu_hwcaps (run_operations ops m))
  ∧ (∀ op m, is_detection op = false →
       cpu_hwcaps (final (run_operation op m)) = cpu_hwcaps m)
  ∧ (∀ caps m, cpu_hwcaps (final (enable_cpu_capabilities caps m)) = cpu_hwcaps m)
  ∧ (∀ this m,
       cpu_hwcaps (final (verify_local_cpu_capabilities this m)) = cpu_hwcaps m).
Proof.
  split; [|split; [|split]].
  - intros ops. unfold run_operations.
    induction ops as [|op ops IH]; intros m; simpl; [done|].
    etrans; [apply (grows_hwcaps_run_operation op)|apply IH].
  - intros op m Hop. by apply keeps_hwcaps_other_operations.
  - intros caps m. apply keeps_hwcaps_enable_cpu_capabilities.
  - intros this m. apply keeps_hwcaps_verify_capabilities.
Qed.

(** ** More on __raw_read_system_reg *)

Lemma switch_operand_elem sys_id cases operand :
  switch_operand sys_id cases = Some operand → operand ∈ cases.*2.
Proof.
  induction cases as [|[label o] cases IH]; simpl; [done|].
  destruct (sys_id =? sys_reg_encoding label).
  - intros [= ->]. apply list_elem_of_here.
  - intros H. apply list_elem_of_further. by apply IH.
Qed.

(** X3: whatever identifier it is given, the local query never reads
    ID_ISAR5_EL1, ID_AA64PFR1_EL1 or ID_AA64DFR1_EL1: it ends in [BUG()], or
    it makes one read of some other register and returns that value. *)
Theorem raw_read_never_reads this sys_id m :
  let cpu := raw_smp_processor_id this in
  __raw_read_system_reg this sys_id m = Halts BUG (emit [ev_BUG cpu] m)
  ∨ ∃ operand,
      operand ≠ SYS_ID_ISAR5_EL1
      ∧ operand ≠ SYS_ID_AA64PFR1_EL1
      ∧ operand ≠ SYS_ID_AA64DFR1_EL1
      ∧ __raw_read_system_reg this sys_id m
        = Returns (id_regs this operand) (emit [ev_read_cpuid cpu operand] m).
Proof.
  intros cpu. unfold __raw_read_system_reg. rewrite switch_sys_id_eq.
  destruct (switch_operand sys_id raw_read_cases) as [operand|] eqn:Hop;
    [right|by left].
  exists operand.
  apply switch_operand_elem, (bool_decide_eq_true_2 _) in Hop.
  destruct operand; first [ by vm_compute in Hop | done ].
Qed.

(** ** Verification of an entry whose identifier has no case *)

(** X8: with the flag raised, when the first entry that cannot be handled is
    one the verifier re-checks and whose [sys_reg] has no [case], the core
    ends in [BUG()] on that entry's read: nothing is printed, the core stays
    in the present mask, and no hook of that or a later entry runs. *)
Theorem verify_bug_at_unknown_sys_reg this pre c post m :
  sys_caps_initialised m = true →
  Forall (λ c', is_Some (matches c')
                ∧ (reverified (cpu_hwcaps m) c' → local_verdict this c' = Some true))
    pre →
  is_Some (matches c) →
  reverified (cpu_hwcaps m) c →
  ¬ enumerated (sys_reg c) →
  verify_capabilities this (pre ++ c :: post) m
  = Halts BUG
      (emit (first_pass_trace this (cpu_hwcaps m) pre
             ++ [ev_BUG (raw_smp_processor_id this)]) m).
Proof.
  intros Hflag Hpre Hm [Hcap Hreg] Hout.
  unfold verify_capabilities. unfold bind at 1, get at 1.
  rewrite Hflag. cbn [negb]. unfold bind.
  rewrite verify_first_pass_app by done.
  rewrite verify_first_pass_bug; [by rewrite emit_emit|done..|].
  apply switch_operand_None. intros r Hr. apply Hout. by exists r.
Qed.

(** ** What verification changes *)

Lemma parks_or_traces_bind {A B} cpu (c : M A) (k : A → M B) :
  parks_or_traces cpu c → (∀ a, parks_or_traces cpu (k a)) →
  parks_or_traces cpu (bind c k).
Proof.
  intros Hc Hk m. unfold bind. destruct (Hc m) as [evs1 H1].
  destruct (c m) as [a m1|h m1].
  - subst m1. destruct (Hk a (emit evs1 m)) as [evs2 H2].
    exists (evs1 ++ evs2). rewrite <- emit_emit.
    by destruct (k a (emit evs1 m)) as [b m2|[] m2].
  - by exists evs1.
Qed.

Lemma parks_or_traces_ret {A} cpu (a : A) : parks_or_traces cpu (ret a).
Proof. intros m. exists []. simpl. by rewrite emit_nil. Qed.

Lemma parks_or_traces_stop {A} cpu h :
  h ≠ PARKED → parks_or_traces cpu (@stop A h).
Proof. intros Hh m. exists []. simpl. rewrite emit_nil. by destruct h. Qed.

Lemma parks_or_traces_get {A} cpu (f : machine → A) : parks_or_traces cpu (get f).
Proof. intros m. exists []. simpl. by rewrite emit_nil. Qed.

Lemma parks_or_traces_cpus_have_cap cpu num : parks_or_traces cpu (cpus_have_cap num).
Proof. apply parks_or_traces_get. Qed.

Lemma parks_or_traces_call_enable cpu this fn arg :
  parks_or_traces cpu (call_enable this fn arg).
Proof. intros m. by eexists. Qed.

Lemma parks_or_traces_call_feature_matches cpu this reg c :
  parks_or_traces cpu (call_feature_matches this reg c).
Proof. intros m. by eexists. Qed.

Lemma parks_or_traces_raw_read cpu this sys_id :
  parks_or_traces cpu (__raw_read_system_reg this sys_id).
Proof.
  intros m. unfold __raw_read_system_reg. rewrite switch_sys_id_eq.
  destruct (switch_operand _ _); by eexists.
Qed.

Lemma parks_or_traces_fail_incapable_cpu this cap_type c :
  parks_or_traces (raw_smp_processor_id this) (fail_incapable_cpu this cap_type c).
Proof. intros m. rewrite fail_incapable_cpu_eq. by eexists. Qed.

Create HintDb parks.
Local Hint Resolve parks_or_traces_ret parks_or_traces_get
  parks_or_traces_cpus_have_cap parks_or_traces_call_enable
  parks_or_traces_call_feature_matches parks_or_traces_raw_read
  parks_or_traces_fail_incapable_cpu : parks.

Ltac parks_step :=
  match goal with
  | |- parks_or_traces _ (bind _ _) => apply parks_or_traces_bind; [|intros ?]
  | |- parks_or_traces _ (stop _) => by apply parks_or_traces_stop
  | |- parks_or_traces _ (match ?x with _ => _ end) => destruct x
  end.

Lemma parks_or_traces_verify_first_pass this caps :
  parks_or_traces (raw_smp_processor_id this) (verify_first_pass this caps).
Proof.
  induction caps as [|c rest IH]; simpl; repeat parks_step; auto with parks.
Qed.

Lemma parks_or_traces_verify_second_pass this caps :
  parks_or_traces (raw_smp_processor_id this) (verify_second_pass this caps).
Proof.
  induction caps as [|c rest IH]; simpl; repeat parks_step; auto with parks.
Qed.

(** X4: whatever the table and the core's registers, verification changes
    the machine in two ways only: it adds to the trace, and when it parks the
    core it takes that core, and no other, out of the present mask.  The
    Capability Set, the flag and the other cores are as before. *)
Theorem verify_touches_only_calling_core this caps m :
  let cpu := raw_smp_processor_id this in
  (∃ evs,
     match verify_capabilities this caps m with
     | Halts PARKED m' => m' = with_present (λ s, s ∖ {[cpu]}) (emit evs m)
     | Returns _ m' | Halts _ m' => m' = emit evs m
     end)
  ∧ ∀ other, other ≠ cpu →
      other ∈ cpu_present_mask (final (verify_capabilities this caps m))
      ↔ other ∈ cpu_present_mask m.
Proof.
  intros cpu.
  assert (parks_or_traces cpu (verify_capabilities this caps)) as Hshape.
  { subst cpu. unfold verify_capabilities. repeat parks_step;
      auto using parks_or_traces_verify_first_pass,
        parks_or_traces_verify_second_pass with parks. }
  split; [apply Hshape|].
  intros other Hother. destruct (Hshape m) as [evs Hm].
  destruct (verify_capabilities this caps m) as [[] m'|[] m']; subst m'; simpl;
    try done.
  rewrite elem_of_difference, elem_of_singleton.
  split; [by intros [? _]|by intros ?].
Qed.

(** ** The boot-completion flag *)

Lemma keeps_flag_bind {A B} (c : M A) (k : A → M B) :
  keeps_flag c → (∀ a, keeps_flag (k a)) → keeps_flag (bind c k).
Proof.
  intros Hc Hk m. unfold bind. specialize (Hc m).
  destruct (c m) as [a m1|h m1]; simpl in Hc |- *; [|done].
  by rewrite Hk.
Qed.

Lemma keeps_flag_ret {A} (a : A) : keeps_flag (ret a).
Proof. done. Qed.
Lemma keeps_flag_stop {A} h : keeps_flag (@stop A h).
Proof. done. Qed.
Lemma keeps_flag_get {A} (f : machine → A) : keeps_flag (get f).
Proof. done. Qed.
Lemma keeps_flag_cpus_have_cap num : keeps_flag (cpus_have_cap num).
Proof. done. Qed.
Lemma keeps_flag_cpus_set_cap num : keeps_flag (cpus_set_cap num).
Proof. done. Qed.
Lemma keeps_flag_pr_info info name : keeps_flag (pr_info info name).
Proof. done. Qed.
Lemma keeps_flag_on_each_cpu fn c wait : keeps_flag (on_each_cpu fn c wait).
Proof. done. Qed.
Lemma keeps_flag_call_enable this fn arg : keeps_flag (call_enable this fn arg).
Proof. done. Qed.
Lemma keeps_flag_call_feature_matches this reg c :
  keeps_flag (call_feature_matches this reg c).
Proof. done. Qed.
Lemma keeps_flag_call_matches this fn c : keeps_flag (call_matches this fn c).
Proof. intros m. by rewrite call_matches_eq. Qed.
Lemma keeps_flag_raw_read this sys_id : keeps_flag (__raw_read_system_reg this sys_id).
Proof.
  intros m. unfold __raw_read_system_reg. rewrite switch_sys_id_eq.
  by destruct (switch_operand _ _).
Qed.
Lemma keeps_flag_fail_incapable_cpu this cap_type c :
  keeps_flag (fail_incapable_cpu this cap_type c).
Proof. intros m. by rewrite fail_incapable_cpu_eq. Qed.

Create HintDb flag.
Local Hint Resolve keeps_flag_ret keeps_flag_stop keeps_flag_get
  keeps_flag_cpus_have_cap keeps_flag_cpus_set_cap keeps_flag_pr_info
  keeps_flag_on_each_cpu keeps_flag_call_enable keeps_flag_call_feature_matches
  keeps_flag_call_matches keeps_flag_raw_read keeps_flag_fail_incapable_cpu : flag.

Ltac flag_step :=
  match goal with
  | |- keeps_flag (bind _ _) => apply keeps_flag_bind; [|intros ?]
  | |- keeps_flag (match ?x with _ => _ end) => destruct x
  end.

Lemma keeps_flag_check_cpu_capabilities this caps info :
  keeps_flag (check_cpu_capabilities this caps info).
Proof.
  induction caps as [|c rest IH]; simpl; repeat flag_step; auto with flag.
Qed.

Lemma keeps_flag_enable_cpu_capabilities caps :
  keeps_flag (enable_cpu_capabilities caps).
Proof.
  induction caps as [|c rest IH]; simpl; repeat flag_step; auto with flag.
Qed.

Lemma keeps_flag_verify_first_pass this caps :
  keeps_flag (verify_first_pass this caps).
Proof.
  induction caps as [|c rest IH]; simpl; repeat flag_step; auto with flag.
Qed.

Lemma keeps_flag_verify_second_pass this caps :
  keeps_flag (verify_second_pass this caps).
Proof.
  induction caps as [|c rest IH]; simpl; repeat flag_step; auto with flag.
Qed.

Lemma keeps_flag_verify_capabilities this caps :
  keeps_flag (verify_capabilities this caps).
Proof.
  unfold verify_capabilities. repeat flag_step;
    auto using keeps_flag_verify_first_pass, keeps_flag_verify_second_pass
      with flag.
Qed.

Lemma keeps_flag_run_operation op :
  op ≠ op_set_sys_caps_initialised → keeps_flag (run_operation op).
Proof.
  destruct op; simpl; intros Hop; try done.
  - apply keeps_flag_check_cpu_capabilities.
  - apply keeps_flag_check_cpu_capabilities.
  - apply keeps_flag_enable_cpu_capabilities.
  - apply keeps_flag_verify_capabilities.
  - apply keeps_flag_verify_capabilities.
Qed.

(** X5: the boot-completion flag goes one way.  Over any sequence of
    operations a raised flag stays raised; [set_sys_caps_initialised] raises
    it, and no other operation changes it, whether it returns or halts its
    core. *)
Theorem sys_caps_initialised_one_way :
  (∀ ops m, sys_caps_initialised m = true →
     sys_caps_initialised (run_operations ops m) = true)
  ∧ (∀ op m, op ≠ op_set_sys_caps_initialised →
       sys_caps_initialised (final (run_operation op m)) = sys_caps_initialised m)
  ∧ (∀ m, sys_caps_initialised (final (set_sys_caps_initialised m)) = true).
Proof.
  split; [|split; [|done]].
  - intros ops. unfold run_operations.
    induction ops as [|op ops IH]; intros m Hflag; simpl; [done|].
    apply IH. destruct op; try done; by rewrite keeps_flag_run_operation.
  - intros op m Hop. by apply keeps_flag_run_operation.
Qed.

(** ** Walks over a part of a table *)

Lemma elem_of_detected this entries id :
  id ∈ detected this entries
  ↔ ∃ c, c ∈ entries ∧ match_verdict this c ∧ capability c = id.
Proof.
  unfold detected. rewrite elem_of_list_to_set, list_elem_of_fmap. split.
  - intros (c & -> & Hc). apply list_elem_of_filter in Hc as [Hv Hc]. eauto.
  - intros (c & Hc & Hv & <-). exists c. split; [done|].
    by apply list_elem_of_filter.
Qed.

Lemma detected_app this pre entries :
  detected this (pre ++ entries) = detected this pre ∪ detected this entries.
Proof.
  unfold detected. by rewrite filter_app, fmap_app, list_to_set_app_L.
Qed.

Lemma check_cpu_capabilities_step_events this c rest info m :
  is_Some (desc c) → is_Some (matches c) →
  ∃ evs,
    check_cpu_capabilities this (c :: rest) info m
    = check_cpu_capabilities this rest info
        (with_hwcaps (λ s, s ∪ detected this [c]) (emit evs m))
    ∧ Forall (λ e, is_detection_event e) evs.
Proof.
  intros [name Hd] [fn Hm]. simpl. rewrite Hd, Hm.
  unfold bind at 1. rewrite call_matches_eq.
  unfold detected, match_verdict. rewrite filter_cons, filter_nil, Hm.
  destruct (feature_matches _ c); cbn [negb]; simpl.
  - unfold_monad.
    destruct (bool_decide (capability c ∈ cpu_hwcaps m)); cbn [negb]; unfold_monad.
    + eexists. split.
      * by rewrite (right_id_L ∅ (∪)).
      * by repeat constructor.
    + eexists. split.
      * by rewrite emit_emit, (right_id_L ∅ (∪)).
      * by repeat constructor.
  - eexists. split.
    + destruct m; unfold with_hwcaps, emit; simpl. by rewrite (right_id_L ∅ (∪)).
    + by repeat constructor.
Qed.

(** Detection walks over named entries with hooks and goes on with what
    follows them. *)
Lemma check_cpu_capabilities_app this pre rest info :
  Forall (λ c, is_Some (desc c) ∧ is_Some (matches c)) pre →
  ∀ m, ∃ evs,
    check_cpu_capabilities this (pre ++ rest) info m
    = check_cpu_capabilities this rest info
        (with_hwcaps (λ s, s ∪ detected this pre) (emit evs m))
    ∧ Forall (λ e, is_detection_event e) evs.
Proof.
  induction 1 as [|c pre [Hd Hm] _ IH]; intros m; simpl app.
  - exists []. split; [|done].
    destruct m; unfold with_hwcaps, emit, detected; simpl.
    by rewrite app_nil_r, (right_id_L ∅ (∪)).
  - destruct (check_cpu_capabilities_step_events this c (pre ++ rest) info m)
      as (evs1 & -> & Hevs1); [done..|].
    destruct (IH (with_hwcaps (λ s, s ∪ detected this [c]) (emit evs1 m)))
      as (evs2 & -> & Hevs2).
    exists (evs1 ++ evs2). split; [|by apply Forall_app].
    rewrite !with_hwcaps_emit, emit_emit, with_hwcaps_compose.
    do 2 f_equal. apply with_hwcaps_const; simpl.
    change (c :: pre) with ([c] ++ pre).
    by rewrite detected_app, (assoc_L (∪)).
Qed.

(** The broadcast walks over entries with a [matches] hook and goes on with
    what follows them. *)
Lemma enable_cpu_capabilities_app pre rest m :
  Forall (λ c, is_Some (matches c)) pre →
  enable_cpu_capabilities (pre ++ rest) m
  = enable_cpu_capabilities rest
      (emit (flat_map (broadcast (cpu_online_mask m))
               (filter (λ c, is_Some (enable c) ∧ capability c ∈ cpu_hwcaps m)
                  pre)) m).
Proof.
  intros Hpre. revert m.
  induction Hpre as [|c pre Hc _ IH]; intros m; simpl app.
  - by rewrite emit_nil.
  - rewrite enable_cpu_capabilities_step, IH by done.
    rewrite emit_emit, filter_cons. simpl.
    by destruct (decide (is_Some (enable c) ∧ capability c ∈ cpu_hwcaps m)).
Qed.

(** ** Tables without their closing entry, and entries without a hook *)

Lemma check_cpu_capabilities_in_bounds this caps info m m' :
  (∃ s, s ∈ caps ∧ desc s = None) →
  check_cpu_capabilities this caps info m ≠ Halts OUT_OF_BOUNDS m'.
Proof.
  revert m. induction caps as [|c rest IH]; intros m (s & Hs & Hd).
  { by apply elem_of_nil in Hs. }
  destruct (desc c) as [name|] eqn:Hc;
    [|by rewrite check_cpu_capabilities_end].
  destruct (matches c) as [fn|] eqn:Hm; [|simpl; by rewrite Hc, Hm].
  destruct (check_cpu_capabilities_step_events this c rest info m)
    as (evs & -> & _); [by eauto..|].
  apply IH. exists s. split; [|done].
  apply elem_of_cons in Hs as [->|Hs]; [congruence|done].
Qed.

Lemma enable_cpu_capabilities_in_bounds caps m m' :
  (∃ s, s ∈ caps ∧ matches s = None) →
  enable_cpu_capabilities caps m ≠ Halts OUT_OF_BOUNDS m'.
Proof.
  revert m. induction caps as [|c rest IH]; intros m (s & Hs & Hd).
  { by apply elem_of_nil in Hs. }
  destruct (matches c) as [fn|] eqn:Hm;
    [|by rewrite enable_cpu_capabilities_end].
  rewrite enable_cpu_capabilities_step by eauto.
  apply IH. exists s. split; [|done].
  apply elem_of_cons in Hs as [->|Hs]; [congruence|done].
Qed.

Lemma verify_first_pass_in_bounds this caps m m' :
  (∃ s, s ∈ caps ∧ matches s = None) →
  verify_first_pass this caps m ≠ Halts OUT_OF_BOUNDS m'.
Proof.
  revert m. induction caps as [|c rest IH]; intros m (s & Hs & Hd).
  { by apply elem_of_nil in Hs. }
  destruct (matches c) as [fn|] eqn:Hm;
    [|by rewrite verify_first_pass_end].
  assert (∃ s, s ∈ rest ∧ matches s = None) as Hrest.
  { exists s. split; [|done].
    apply elem_of_cons in Hs as [->|Hs]; [congruence|done]. }
  destruct (decide (capability c ∈ cpu_hwcaps m)) as [Hcap|Hcap];
    [|rewrite verify_first_pass_skip by eauto; by apply IH].
  destruct (decide (sys_reg c = 0)) as [Hz|Hz];
    [rewrite verify_first_pass_skip by eauto; by apply IH|].
  destruct (switch_operand (sys_reg c) raw_read_cases) as [operand|] eqn:Hop.
  - rewrite (verify_first_pass_check _ _ _ _ operand) by eauto.
    destruct (feature_matches _ c); [by apply IH|].
    by rewrite fail_incapable_cpu_eq.
  - by rewrite verify_first_pass_bug by eauto.
Qed.

Lemma verify_second_pass_in_bounds this caps m m' :
  (∃ s, s ∈ caps ∧ desc s = None) →
  verify_second_pass this caps m ≠ Halts OUT_OF_BOUNDS m'.
Proof.
  revert m. induction caps as [|c rest IH]; intros m (s & Hs & Hd).
  { by apply elem_of_nil in Hs. }
  destruct (desc c) as [name|] eqn:Hc;
    [|by rewrite verify_second_pass_end].
  rewrite verify_second_pass_step by eauto.
  apply IH. exists s. split; [|done].
  apply elem_of_cons in Hs as [->|Hs]; [congruence|done].
Qed.

(** X6: a table that holds an entry with neither name nor [matches] hook,
    as the closing [{}] is, is never walked past its last element, by
    detection, by the broadcast or by verification, on any machine.  A table
    of named entries with hooks and nothing after them is: detection and the
    broadcast run off its end. *)
Theorem closing_entry_bounds_the_walks this caps info :
  ((∃ s, s ∈ caps ∧ desc s = None ∧ matches s = None) →
   ∀ m m',
     check_cpu_capabilities this caps info m ≠ Halts OUT_OF_BOUNDS m'
     ∧ enable_cpu_capabilities caps m ≠ Halts OUT_OF_BOUNDS m'
     ∧ verify_capabilities this caps m ≠ Halts OUT_OF_BOUNDS m')
  ∧ (Forall (λ c, is_Some (desc c) ∧ is_Some (matches c)) caps →
     ∀ m, (∃ m', check_cpu_capabilities this caps info m = Halts OUT_OF_BOUNDS m')
          ∧ (∃ m', enable_cpu_capabilities caps m = Halts OUT_OF_BOUNDS m')).
Proof.
  split.
  - intros (s & Hs & Hd & Hm) m m'. split; [|split].
    + apply check_cpu_capabilities_in_bounds. eauto.
    + apply enable_cpu_capabilities_in_bounds. eauto.
    + unfold verify_capabilities. unfold bind at 1, get at 1.
      destruct (sys_caps_initialised m); cbn [negb]; [|done].
      unfold bind.
      destruct (verify_first_pass this caps m) as [[] m1|h m1] eqn:Hfirst.
      * apply verify_second_pass_in_bounds. eauto.
      * intros [= -> ->].
        apply verify_first_pass_in_bounds in Hfirst; [done|eauto].
  - intros Hcaps m. split.
    + destruct (check_cpu_capabilities_app this caps [] info Hcaps m)
        as (evs & Hrun & _).
      rewrite app_nil_r in Hrun. rewrite Hrun. by eexists.
    + rewrite <- (app_nil_r caps), enable_cpu_capabilities_app.
      * by eexists.
      * eapply Forall_impl; [exact Hcaps|]. by intros c [_ ?].
Qed.

(** X7: a named entry without [matches] hook, after named entries with
    hooks, stops detection in a call through the null pointer, once the
    entries before it have been handled; the broadcast takes the same entry
    for the end of the table and returns. *)
Theorem check_calls_null_matches this pre c post info m :
  Forall (λ c', is_Some (desc c') ∧ is_Some (matches c')) pre →
  is_Some (desc c) → matches c = None →
  (∃ evs,
     check_cpu_capabilities this (pre ++ c :: post) info m
     = Halts NULL_CALL
         (with_hwcaps (λ s, s ∪ detected this pre) (emit evs m)))
  ∧ enable_cpu_capabilities (pre ++ c :: post) m
    = Returns tt
        (emit (flat_map (broadcast (cpu_online_mask m))
                 (filter (λ c', is_Some (enable c') ∧ capability c' ∈ cpu_hwcaps m)
                    pre)) m).
Proof.
  intros Hpre [name Hd] Hm. split.
  - destruct (check_cpu_capabilities_app this pre (c :: post) info Hpre m)
      as (evs & -> & _).
    exists evs. simpl. by rewrite Hd, Hm.
  - rewrite enable_cpu_capabilities_app, enable_cpu_capabilities_end; [done..|].
    eapply Forall_impl; [exact Hpre|]. by intros c' [_ ?].
Qed.

(** ** Detection, then the broadcast *)

Lemma detected_none this entries :
  (∀ c, c ∈ entries → match_verdict this c = false) → detected this entries = ∅.
Proof.
  intros Hnone. apply set_eq. intros id. rewrite elem_of_detected. split.
  - intros (c & Hc & Hv & _). by rewrite (Hnone c Hc) in Hv.
  - intros Hid. by apply not_elem_of_empty in Hid.
Qed.

Lemma filter_broadcast_detection evs :
  Forall (λ e, is_detection_event e) evs →
  filter (λ e, is_broadcast_event e) evs = [].
Proof.
  induction 1 as [|e evs He _ IH]; [done|].
  rewrite filter_cons_False; [exact IH|]. destruct e; solve [intros [] | destruct He].
Qed.

(** X9: on a table of named entries with hooks, closed by an entry with
    neither, detection from an empty Capability Set followed by the broadcast
    returns; detection itself runs no [enable] hook, and the broadcast adds
    to the trace one [on_each_cpu] for every entry that has an [enable] hook
    and whose capability some entry detected, and nothing else.  When no
    entry matches on the boot core the set stays empty and the broadcast adds
    nothing. *)
Theorem detect_then_enable this entries s post info m :
  Forall (λ c, is_Some (desc c) ∧ is_Some (matches c)) entries →
  desc s = None → matches s = None →
  cpu_hwcaps m = ∅ →
  let caps := entries ++ s :: post in
  ∃ m1 m2,
    check_cpu_capabilities this caps info m = Returns tt m1
    ∧ enable_cpu_capabilities caps m1 = Returns tt m2
    ∧ filter (λ e, is_broadcast_event e) (drop (length (trace m)) (trace m1)) = []
    ∧ trace m2
      = trace m1
        ++ flat_map (broadcast (cpu_online_mask m))
             (filter (λ c, is_Some (enable c)
                           ∧ capability c ∈ detected this entries)
                entries)
    ∧ ((∀ c, c ∈ entries → match_verdict this c = false) →
       cpu_hwcaps m2 = ∅ ∧ trace m2 = trace m1).
Proof.
  intros Hentries Hd Hm Hempty caps. subst caps.
  destruct (check_cpu_capabilities_app this entries (s :: post) info Hentries m)
    as (evs & Hrun & Hevs).
  rewrite check_cpu_capabilities_end in Hrun by done.
  eexists _, _. split; [exact Hrun|].
  assert (Forall (λ c, is_Some (matches c)) entries) as Hhooks.
  { eapply Forall_impl; [exact Hentries|]. by intros c [_ ?]. }
  rewrite enable_cpu_capabilities_app, enable_cpu_capabilities_end by done.
  split; [reflexivity|]. simpl. rewrite Hempty, (left_id_L ∅ (∪)).
  split; [|split].
  - rewrite drop_app_length. by apply filter_broadcast_detection.
  - done.
  - intros Hnone. rewrite detected_none by done. split; [done|].
    rewrite filter_none, app_nil_r; [done|].
    intros c [_ Hin]. by apply not_elem_of_empty in Hin.
Qed.

(** X11: detection run on one core and then on another returns both times
    and leaves in the Capability Set what was there and every capability
    that an entry detects on either core; the order of the two cores makes no
    difference to the set. *)
Theorem check_cpu_capabilities_accumulates this other entries s post info m :
  Forall (λ c, is_Some (desc c) ∧ is_Some (matches c)) entries →
  desc s = None →
  let caps := entries ++ s :: post in
  ∃ m1 m2 n1 n2,
    check_cpu_capabilities this caps info m = Returns tt m1
    ∧ check_cpu_capabilities other caps info m1 = Returns tt m2
    ∧ check_cpu_capabilities other caps info m = Returns tt n1
    ∧ check_cpu_capabilities this caps info n1 = Returns tt n2
    ∧ cpu_hwcaps n2 = cpu_hwcaps m2
    ∧ ∀ id, id ∈ cpu_hwcaps m2
            ↔ id ∈ cpu_hwcaps m
              ∨ ∃ c, c ∈ entries
                     ∧ (match_verdict this c ∨ match_verdict other c)
                     ∧ capability c = id.
Proof.
  intros Hentries Hd caps. subst caps.
  assert (∀ core m, ∃ evs,
    check_cpu_capabilities core (entries ++ s :: post) info m
    = Returns tt (with_hwcaps (λ s, s ∪ detected core entries) (emit evs m)))
    as Hwalk.
  { intros core m0.
    destruct (check_cpu_capabilities_app core entries (s :: post) info Hentries m0)
      as (evs & Hrun & _).
    rewrite check_cpu_capabilities_end in Hrun by done. eauto. }
  destruct (Hwalk this m) as [e1 H1].
  destruct (Hwalk other (with_hwcaps (λ s, s ∪ detected this entries) (emit e1 m)))
    as [e2 H2].
  destruct (Hwalk other m) as [e3 H3].
  destruct (Hwalk this (with_hwcaps (λ s, s ∪ detected other entries) (emit e3 m)))
    as [e4 H4].
  eexists _, _, _, _.
  split; [exact H1|]. split; [exact H2|]. split; [exact H3|]. split; [exact H4|].
  simpl. split.
  - rewrite <- !(assoc_L (∪)). f_equal. apply (comm_L (∪)).
  - intros id. rewrite !elem_of_union, !elem_of_detected. split.
    + intros [[?|(c & ? & ? & ?)]|(c & ? & ? & ?)]; eauto 10.
    + intros [?|(c & ? & [?|?] & ?)]; eauto 10.
Qed.

(** ** Detection, then verification *)

Lemma NoDup_fmap_elem_eq {A B} (f : A → B) (l : list A) x y :
  NoDup (f <$> l) → x ∈ l → y ∈ l → f x = f y → x = y.
Proof.
  induction l as [|a l IH]; simpl; intros Hnd Hx Hy Hf.
  { by apply elem_of_nil in Hx. }
  apply NoDup_cons in Hnd as [Ha Hnd].
  apply elem_of_cons in Hx as [->|Hx]; apply elem_of_cons in Hy as [->|Hy].
  - done.
  - destruct Ha. rewrite Hf. by apply list_elem_of_fmap_2.
  - destruct Ha. rewrite <- Hf. by apply list_elem_of_fmap_2.
  - by apply IH.
Qed.

(** The labels of the two registers the [matches] hooks read select those
    registers. *)
Lemma switch_operand_match_operand `{!Inj (=) (=) sys_reg_encoding} fn :
  switch_operand (sys_reg_encoding (match_operand fn)) raw_read_cases
  = Some (match_operand fn).
Proof. rewrite switch_operand_label. by destruct fn. Qed.

(** X10: take a table of named entries with hooks, closed by an entry with
    neither, in which no two entries share a capability and every [sys_reg]
    that is set names the register the entry's [matches] hook reads.  After
    detection on the boot core from an empty Capability Set and the raising
    of the flag, verification returns on every core whose ID_AA64PFR0_EL1 and
    ID_AA64MMFR1_EL1 hold what the boot core's hold: such a core is never
    parked. *)
Theorem boot_core_passes_verification `{!Inj (=) (=) sys_reg_encoding}
    boot this entries s post info m :
  Forall (λ c, is_Some (desc c) ∧ is_Some (matches c)) entries →
  desc s = None → matches s = None →
  NoDup (capability <$> entries) →
  Forall (λ c, sys_reg c = 0
               ∨ ∃ fn, matches c = Some fn
                       ∧ sys_reg c = sys_reg_encoding (match_operand fn)) entries →
  (∀ fn, id_regs this (match_operand fn) = id_regs boot (match_operand fn)) →
  cpu_hwcaps m = ∅ →
  let caps := entries ++ s :: post in
  ∃ m1 m2,
    check_cpu_capabilities boot caps info m = Returns tt m1
    ∧ verify_capabilities this caps (final (set_sys_caps_initialised m1))
      = Returns tt m2.
Proof.
  intros Hentries Hd Hm Hnodup Hregs Hsame Hempty caps. subst caps.
  destruct (check_cpu_capabilities_app boot entries (s :: post) info Hentries m)
    as (evs & Hrun & _).
  rewrite check_cpu_capabilities_end in Hrun by done.
  eexists _, _. split; [exact Hrun|].
  unfold verify_capabilities. unfold bind at 1, get at 1. simpl.
  unfold bind.
  rewrite verify_first_pass_app, verify_first_pass_end; [|done|].
  - rewrite verify_second_pass_app, verify_second_pass_end; [done..|].
    eapply Forall_impl; [exact Hentries|]. by intros c [? _].
  - simpl. rewrite Hempty, (left_id_L ∅ (∪)).
    apply Forall_forall. intros c Hc.
    rewrite Forall_forall in Hentries. rewrite Forall_forall in Hregs.
    destruct (Hentries c Hc) as [_ Hhook]. split; [done|].
    intros [Hcap Hreg].
    apply elem_of_detected in Hcap as (c' & Hc' & Hv & Hsamecap).
    assert (c' = c) as ->.
    { by apply (NoDup_fmap_elem_eq capability entries). }
    destruct (Hregs c Hc) as [|(fn & Hfn & Hsys)]; [done|].
    unfold local_verdict. rewrite Hsys, switch_operand_match_operand. simpl.
    rewrite Hsame. unfold match_verdict in Hv. rewrite Hfn in Hv.
    f_equal. by apply Is_true_eq_true.
Qed.

End Cpufeature.

(** ** The development at concrete values *)

Global Instance armv8_encoding_inj : Inj (=) (=) armv8_encoding.
Proof.
  intros a b H.
  destruct a, b; (reflexivity || (vm_compute in H; discriminate)).
Qed.

Lemma armv8_encoding_nonzero : ¬ enumerated armv8_encoding 0.
Proof. intros [r H]. destruct r; vm_compute in H; discriminate. Qed.

(** Detection on the boot core, the broadcast, and a late core that lacks
    PAN. *)
Example boot_then_hotplug :
  let boot :=
    run_operations extract_signed_field4 armv8_encoding 3 4 true
      [ op_check_cpu_capabilities capable_core example_table "detected feature";
        op_enable_cpu_capabilities example_table;
        op_set_sys_caps_initialised ] booting_machine in
  cpu_hwcaps boot = {[ 3%N; 4%N ]}
  ∧ sys_caps_initialised boot = true
  ∧ filter (λ e, is_diagnostic e) (trace boot)
    = [ ev_pr_info "detected feature" "GIC system register CPU interface";
        ev_pr_info "detected feature" "Privileged Access Never" ]
  ∧ filter (λ e, is_enable_call e) (trace boot)
    = [ ev_enable 0 cpu_enable_pan (Some pan_entry);
        ev_enable 1 cpu_enable_pan (Some pan_entry);
        ev_enable 2 cpu_enable_pan (Some pan_entry);
        ev_enable 3 cpu_enable_pan (Some pan_entry) ]
  ∧ ∃ parked,
      verify_capabilities extract_signed_field4 armv8_encoding
        incapable_core example_table boot = Halts PARKED parked
      ∧ cpu_present_mask parked = {[ 0%nat; 1%nat; 3%nat ]}.
Proof. vm_compute. repeat split. eexists. split; reflexivity. Qed.

(** The three misdirected cases on a core whose registers differ. *)
Lemma raw_read_wrong_register_witness :
  let this :=
    core_with 1 0 [(SYS_ID_ISAR4_EL1, 4); (SYS_ID_ISAR5_EL1, 5)] in
  id_regs this SYS_ID_ISAR5_EL1 = 5
  ∧ __raw_read_system_reg armv8_encoding this
      (armv8_encoding SYS_ID_ISAR5_EL1) booting_machine
    = Returns 4 (emit [ev_read_cpuid 1 SYS_ID_ISAR4_EL1] booting_machine).
Proof.
  split; [reflexivity|].
  exact (proj1 (raw_read_wrong_register armv8_encoding
                  (core_with 1 0 [(SYS_ID_ISAR4_EL1, 4); (SYS_ID_ISAR5_EL1, 5)])
                  booting_machine)).
Defined.

Lemma verify_parks_at_first_mismatch_witness :
  verify_capabilities extract_signed_field4 armv8_encoding
    incapable_core example_table frozen_machine
  = Halts PARKED
      (with_present (λ s, s ∖ {[ 2%nat ]})
         (emit [ ev_read_cpuid 2 SYS_ID_AA64PFR0_EL1;
                 ev_feature_matches 2 (2 ^ 24) gic_entry;
                 ev_read_cpuid 2 SYS_ID_AA64MMFR1_EL1;
                 ev_feature_matches 2 0 pan_entry;
                 ev_pr_crit 2 "arm64_features" (Some "Privileged Access Never"%string);
                 ev_set_cpu_present 2 false;
                 ev_cpu_die 2 ] frozen_machine)).
Proof.
  refine (proj1 (verify_parks_at_first_mismatch extract_signed_field4
                   armv8_encoding incapable_core [gic_entry] pan_entry [sentinel]
                   frozen_machine _ _ _ _ _)).
  - reflexivity.
  - constructor; [|constructor]. split; [by eexists|]. intros _. reflexivity.
  - by eexists.
  - split; [set_solver|]. vm_compute. discriminate.
  - reflexivity.
Defined.

Lemma verify_joins_after_two_passes_witness :
  verify_capabilities extract_signed_field4 armv8_encoding
    capable_core example_table frozen_machine
  = Returns tt
      (emit [ ev_read_cpuid 1 SYS_ID_AA64PFR0_EL1;
              ev_feature_matches 1 (2 ^ 24) gic_entry;
              ev_read_cpuid 1 SYS_ID_AA64MMFR1_EL1;
              ev_feature_matches 1 (2 ^ 20) pan_entry;
              ev_enable 1 cpu_enable_pan (Some pan_entry);
              ev_enable 1 cpu_enable_pan None ] frozen_machine).
Proof.
  refine (proj1 (verify_joins_after_two_passes extract_signed_field4
                   armv8_encoding capable_core [gic_entry; pan_entry] sentinel []
                   frozen_machine _ _ _ _ _)).
  - reflexivity.
  - repeat constructor; by eexists.
  - reflexivity.
  - reflexivity.
  - repeat constructor; intros _; reflexivity.
Defined.

Lemma check_cpu_capabilities_detects_witness :
  ∃ evs,
    check_local_cpu_features extract_signed_field4 3 4 true
      capable_core booting_machine
    = Returns tt (with_hwcaps (λ _, {[ 3%N; 4%N ]}) (emit evs booting_machine))
    ∧ filter (λ e, is_diagnostic e) evs
      = [ ev_pr_info "detected feature" "GIC system register CPU interface";
          ev_pr_info "detected feature" "Privileged Access Never" ].
Proof.
  destruct (check_cpu_capabilities_detects extract_signed_field4 capable_core
              (take 2 (arm64_features 3 4 true)) sentinel [] "detected feature"
              booting_machine) as (evs & Hrun & _ & Hdiag).
  - repeat constructor; by eexists.
  - reflexivity.
  - exists evs. split; [exact Hrun|exact Hdiag].
Defined.

Lemma feature_matches_threshold_witness :
  feature_matches extract_signed_field4 (2 ^ 24) gic_entry = true
  ∧ feature_matches extract_signed_field4 0 gic_entry = false.
Proof.
  split.
  - apply (feature_matches_threshold extract_signed_field4 (2 ^ 24) gic_entry).
    reflexivity.
  - apply (feature_matches_threshold extract_signed_field4 0 gic_entry).
    reflexivity.
Defined.

Lemma enable_cpu_capabilities_broadcasts_witness :
  enable_cpu_capabilities example_table frozen_machine
  = Returns tt
      (emit [ ev_on_each_cpu cpu_enable_pan pan_entry true;
              ev_enable 0 cpu_enable_pan (Some pan_entry);
              ev_enable 1 cpu_enable_pan (Some pan_entry);
              ev_enable 2 cpu_enable_pan (Some pan_entry);
              ev_enable 3 cpu_enable_pan (Some pan_entry) ] frozen_machine)
  ∧ enable_cpu_capabilities example_table booting_machine
    = Returns tt booting_machine.
Proof.
  split.
  - refine (proj1 (enable_cpu_capabilities_broadcasts [gic_entry; pan_entry]
                     sentinel [] frozen_machine _ _)).
    + repeat constructor; by eexists.
    + reflexivity.
  - refine (proj2 (enable_cpu_capabilities_broadcasts [gic_entry; pan_entry]
                     sentinel [] booting_machine _ _) _).
    + repeat constructor; by eexists.
    + reflexivity.
    + reflexivity.
Defined.

Lemma verify_before_initialised_witness :
  verify_local_cpu_capabilities extract_signed_field4 armv8_encoding 3 4 true
    incapable_core booting_machine = Returns tt booting_machine
  ∧ verify_capabilities extract_signed_field4 armv8_encoding
      incapable_core example_table booting_machine = Returns tt booting_machine.
Proof.
  destruct (verify_before_initialised extract_signed_field4 armv8_encoding 3 4 true
              incapable_core booting_machine) as [Hlocal Hany].
  - reflexivity.
  - split; [exact Hlocal|apply Hany].
Defined.

Lemma raw_read_bug_outside_enumeration_witness :
  __raw_read_system_reg armv8_encoding capable_core 0 booting_machine
  = Halts BUG (emit [ev_BUG 1] booting_machine)
  ∧ ∀ m', verify_capabilities extract_signed_field4 armv8_encoding
            incapable_core example_table frozen_machine ≠ Halts BUG m'.
Proof.
  destruct (raw_read_bug_outside_enumeration extract_signed_field4 armv8_encoding
              capable_core) as (Hout & _ & _).
  destruct (raw_read_bug_outside_enumeration extract_signed_field4 armv8_encoding
              incapable_core) as (_ & _ & Hverify).
  split.
  - apply Hout. exact armv8_encoding_nonzero.
  - intros m'. apply Hverify.
    constructor; [right; by eexists|].
    constructor; [right; by eexists|].
    constructor; [by left|constructor].
Defined.

Lemma raw_read_own_register_witness :
  __raw_read_system_reg armv8_encoding capable_core
    (armv8_encoding SYS_ID_AA64MMFR1_EL1) booting_machine
  = Returns (2 ^ 20) (emit [ev_read_cpuid 1 SYS_ID_AA64MMFR1_EL1] booting_machine).
Proof.
  refine (raw_read_own_register armv8_encoding capable_core
            SYS_ID_AA64MMFR1_EL1 booting_machine _ _ _); discriminate.
Defined.

(** The field is signed: all ones in a field is -1 and misses a threshold
    of 1, and the largest value that passes is 7. *)
Example feature_matches_signed_field :
  feature_matches extract_signed_field4 (15 * 2 ^ 24) gic_entry = false
  ∧ feature_matches extract_signed_field4 (7 * 2 ^ 24) gic_entry = true
  ∧ feature_matches extract_signed_field4 (2 ^ 24 - 1) gic_entry = false.
Proof. by vm_compute. Qed.

(** On the table of the file a late core that has neither feature joins all
    the same, and only the second pass calls a hook. *)
Example verify_arm64_features_incapable_core :
  verify_local_cpu_capabilities extract_signed_field4 armv8_encoding 3 4 true
    (core_with 5 0 []) frozen_machine
  = Returns tt (emit [ev_enable 5 cpu_enable_pan None] frozen_machine).
Proof. by vm_compute. Qed.

Lemma check_cpu_capabilities_twice_witness :
  ∃ m1 m2,
    check_cpu_capabilities extract_signed_field4 capable_core example_table
      "detected feature" booting_machine = Returns tt m1
    ∧ check_cpu_capabilities extract_signed_field4 capable_core example_table
        "detected feature" m1 = Returns tt m2
    ∧ cpu_hwcaps m2 = cpu_hwcaps m1
    ∧ filter (λ e, is_diagnostic e) (drop (length (trace m1)) (trace m2)) = [].
Proof.
  refine (check_cpu_capabilities_twice extract_signed_field4 capable_core
            [gic_entry; pan_entry] sentinel [] "detected feature"
            booting_machine _ _).
  - repeat constructor; by eexists.
  - reflexivity.
Defined.

Lemma verify_bug_at_unknown_sys_reg_witness :
  verify_capabilities extract_signed_field4 armv8_encoding capable_core
    [gic_entry;
     {| desc := Some "unknown"%string; capability := 4%N;
        matches := Some has_id_aa64mmfr1_feature; enable := Some cpu_enable_pan;
        sys_reg := 1; field_pos := 20; min_field_value := 1 |};
     sentinel] frozen_machine
  = Halts BUG
      (emit [ ev_read_cpuid 1 SYS_ID_AA64PFR0_EL1;
              ev_feature_matches 1 (2 ^ 24) gic_entry;
              ev_BUG 1 ] frozen_machine).
Proof.
  refine (verify_bug_at_unknown_sys_reg extract_signed_field4 armv8_encoding
            capable_core [gic_entry] _ [sentinel] frozen_machine _ _ _ _ _).
  - reflexivity.
  - constructor; [|constructor]. split; [by eexists|]. intros _. reflexivity.
  - by eexists.
  - split; [set_solver|]. discriminate.
  - intros [r Hr]. destruct r; vm_compute in Hr; discriminate.
Defined.

Lemma closing_entry_bounds_the_walks_witness :
  (∀ m',
     check_cpu_capabilities extract_signed_field4 capable_core example_table
       "detected feature" booting_machine ≠ Halts OUT_OF_BOUNDS m'
     ∧ enable_cpu_capabilities example_table booting_machine
       ≠ Halts OUT_OF_BOUNDS m'
     ∧ verify_capabilities extract_signed_field4 armv8_encoding capable_core
         example_table booting_machine ≠ Halts OUT_OF_BOUNDS m')
  ∧ ∃ m', enable_cpu_capabilities [gic_entry; pan_entry] booting_machine
          = Halts OUT_OF_BOUNDS m'.
Proof.
  destruct (closing_entry_bounds_the_walks extract_signed_field4 armv8_encoding
              capable_core example_table "detected feature") as [Hin _].
  destruct (closing_entry_bounds_the_walks extract_signed_field4 armv8_encoding
              capable_core [gic_entry; pan_entry] "detected feature") as [_ Hout].
  split.
  - intros m'. apply Hin. exists sentinel. split; [|done].
    apply list_elem_of_further, list_elem_of_further, list_elem_of_here.
  - apply Hout. repeat constructor; by eexists.
Defined.

Lemma check_calls_null_matches_witness :
  ∃ evs,
    check_cpu_capabilities extract_signed_field4 capable_core
      [gic_entry;
       {| desc := Some "no hook"%string; capability := 5%N; matches := None;
          enable := None; sys_reg := 0; field_pos := 0; min_field_value := 0 |};
       pan_entry; sentinel] "detected feature" booting_machine
    = Halts NULL_CALL
        (with_hwcaps (λ s, s ∪ detected extract_signed_field4 capable_core [gic_entry])
           (emit evs booting_machine)).
Proof.
  refine (proj1 (check_calls_null_matches extract_signed_field4 capable_core
                   [gic_entry] _ [pan_entry; sentinel] "detected feature"
                   booting_machine _ _ _)).
  - repeat constructor; by eexists.
  - by eexists.
  - reflexivity.
Defined.

Lemma detect_then_enable_witness :
  ∃ m1 m2,
    check_cpu_capabilities extract_signed_field4 capable_core example_table
      "detected feature" booting_machine = Returns tt m1
    ∧ enable_cpu_capabilities example_table m1 = Returns tt m2
    ∧ filter (λ e, is_broadcast_event e)
        (drop (length (trace booting_machine)) (trace m1)) = []
    ∧ trace m2
      = trace m1
        ++ flat_map (broadcast (cpu_online_mask booting_machine))
             (filter (λ c, is_Some (enable c)
                           ∧ capability c
                             ∈ detected extract_signed_field4 capable_core
                                 [gic_entry; pan_entry])
                [gic_entry; pan_entry]).
Proof.
  destruct (detect_then_enable extract_signed_field4 capable_core
              [gic_entry; pan_entry] sentinel [] "detected feature"
              booting_machine) as (m1 & m2 & H1 & H2 & H3 & H4 & _).
  - repeat constructor; by eexists.
  - reflexivity.
  - reflexivity.
  - reflexivity.
  - exists m1, m2. repeat split; assumption.
Defined.

Lemma check_cpu_capabilities_accumulates_witness :
  ∃ m1 m2 n1 n2,
    check_cpu_capabilities extract_signed_field4 incapable_core example_table
      "detected feature" booting_machine = Returns tt m1
    ∧ check_cpu_capabilities extract_signed_field4 capable_core example_table
        "detected feature" m1 = Returns tt m2
    ∧ check_cpu_capabilities extract_signed_field4 capable_core example_table
        "detected feature" booting_machine = Returns tt n1
    ∧ check_cpu_capabilities extract_signed_field4 incapable_core example_table
        "detected feature" n1 = Returns tt n2
    ∧ cpu_hwcaps n2 = cpu_hwcaps m2.
Proof.
  destruct (check_cpu_capabilities_accumulates extract_signed_field4
              incapable_core capable_core [gic_entry; pan_entry] sentinel []
              "detected feature" booting_machine)
    as (m1 & m2 & n1 & n2 & H1 & H2 & H3 & H4 & H5 & _).
  - repeat constructor; by eexists.
  - reflexivity.
  - exists m1, m2, n1, n2. repeat split; assumption.
Defined.

Lemma boot_core_passes_verification_witness :
  ∃ m1 m2,
    check_cpu_capabilities extract_signed_field4 capable_core example_table
      "detected feature" booting_machine = Returns tt m1
    ∧ verify_capabilities extract_signed_field4 armv8_encoding capable_core
        example_table (final (set_sys_caps_initialised m1)) = Returns tt m2.
Proof.
  refine (boot_core_passes_verification extract_signed_field4 armv8_encoding
            capable_core capable_core [gic_entry; pan_entry] sentinel []
            "detected feature" booting_machine _ _ _ _ _ _ _).
  - repeat constructor; by eexists.
  - reflexivity.
  - reflexivity.
  - apply (bool_decide_unpack _). by vm_compute.
  - constructor; [right; by eexists|].
    constructor; [right; by eexists|constructor].
  - reflexivity.
  - reflexivity.
Defined.

(** When two entries share a capability the boot core can fail its own
    verification: the first entry commits capability 3, the second asks
    for more than the core has. *)
Example boot_core_parked_by_shared_capability :
  let table :=
    [ gic_entry;
      {| desc := Some "GIC v4"%string; capability := 3%N;
         matches := Some has_id_aa64pfr0_feature; enable := None;
         sys_reg := armv8_encoding SYS_ID_AA64PFR0_EL1;
         field_pos := 24; min_field_value := 3 |};
      sentinel ] in
  ∃ m1 parked,
    check_cpu_capabilities extract_signed_field4 capable_core table
      "detected feature" booting_machine = Returns tt m1
    ∧ verify_capabilities extract_signed_field4 armv8_encoding capable_core
        table (final (set_sys_caps_initialised m1)) = Halts PARKED parked.
Proof. vm_compute. eexists _, _. split; reflexivity. Qed.
